(** * LIN frame segmentation: a shallow embedding of [lin_parser.py]

    The development models [LINParser.parse_frames] and
    [LINParser._extract_frame] of
    [docs/LIN_analysis/01_parsing/lin_parser.py] and checks the
    frame-boundary properties stated for them.

    Conventions.
    - [self.bytes_data] is a [list (Z * string)]: Python integers are
      unbounded, byte tokens are strings such as ["0x55"].
    - List indices are [nat]: every index the parser computes is
      non-negative ([sync_idx - 1] and [next_sync_idx - 1] are guarded by
      [> 0] in the source), so Python's negative-index wrap-around never
      applies.  A subscript out of range raises [IndexError]; this is kept
      explicit in the [exc] monad.
    - [for j in range(a, b)] is a recursion over the index list [range a b];
      the [while] loop of [parse_frames] is a recursion on fuel. *)

From Stdlib Require Import String Ascii.
From Stdlib Require Import List ZArith Lia Bool Arith Sorted.
From Stdlib Require Import DecimalString DecimalZ DecimalPos.
Import ListNotations.
Local Open Scope string_scope.
Local Open Scope list_scope.

(** ** Exceptions *)

Inductive exc (A : Type) : Type :=
| Val (a : A)
| IndexError.
Arguments Val {A} a.
Arguments IndexError {A}.

Definition bind {A B : Type} (m : exc A) (k : A -> exc B) : exc B :=
  match m with
  | Val a => k a
  | IndexError => IndexError
  end.

Notation "x <- m ;; k" := (bind m (fun x => k))
  (at level 61, m at next level, right associativity).
Notation "' p <- m ;; k" := (bind m (fun x => match x with p => k end))
  (at level 61, p pattern, m at next level, right associativity).

(** ** Strings: [str.upper()] on the byte tokens

    Only ASCII letters are mapped; the comparisons of the parser are
    against ['0X55'] and ['0X00'], which no non-ASCII character upper-cases
    into. *)

Definition upper_ascii (c : ascii) : ascii :=
  let n := nat_of_ascii c in
  if (97 <=? n)%nat && (n <=? 122)%nat then ascii_of_nat (n - 32) else c.

Fixpoint upper (s : string) : string :=
  match s with
  | EmptyString => EmptyString
  | String c s' => String (upper_ascii c) (upper s')
  end.

(** ** Data model *)

Definition capture : Type := list (Z * string).

Record LINFrame : Type := {
  timestamp : Z;
  break_byte : string;
  sync : string;
  pid : string;
  data : list string;
  checksum : string
}.

(** Truthiness of an [Optional[str]]: [None] and [""] are falsy. *)
Definition truthy (o : option string) : bool :=
  match o with
  | Some EmptyString => false
  | Some _ => true
  | None => false
  end.

(** [LINFrame.__init__]: [self.break_byte = break_byte if break_byte else ""]. *)
Definition LINFrame__init__ (ts : Z) (brk : option string) (sy p : string)
    (d : list string) (chk : string) : LINFrame :=
  {| timestamp := ts;
     break_byte := if truthy brk then match brk with Some b => b | None => "" end
                   else "";
     sync := sy;
     pid := p;
     data := d;
     checksum := chk |}.

Definition SYNC_BYTE : string := "0x55".

(** [xs[i]] for a non-negative [i]. *)
Definition getitem {A : Type} (xs : list A) (i : nat) : exc A :=
  match nth_error xs i with
  | Some x => Val x
  | None => IndexError
  end.

(** [range(a, b)]: empty when [b <= a]. *)
Definition range (a b : nat) : list nat := seq a (b - a).

(** [bytes_data[j][1].upper() == SYNC_BYTE.upper()] *)
Definition is_sync (v : string) : bool := String.eqb (upper v) (upper SYNC_BYTE).

(** [bytes_data[j][1].upper() == '0X00'] *)
Definition is_break (v : string) : bool := String.eqb (upper v) "0X00".

(** ** [_extract_frame], lines 178-183: the first sync byte at or after
    [current_idx]; [None] when the loop runs to the end without [break]. *)
Fixpoint find_sync_in (bd : capture) (js : list nat) : exc (option nat) :=
  match js with
  | [] => Val None
  | j :: js' =>
      '(_, v) <- getitem bd j ;;
      if is_sync v then Val (Some j) else find_sync_in bd js'
  end.

Definition find_next_sync (bd : capture) (current_idx : nat) : exc (option nat) :=
  find_sync_in bd (range current_idx (length bd)).

(** Lines 185-194: the boundary implied by the sync look-ahead, before the
    clamp to [max_idx]. *)
Definition sync_boundary (bd : capture) (next_sync_idx : option nat)
    (max_idx : nat) : exc nat :=
  match next_sync_idx with
  | Some n =>
      if (0 <? n)%nat then
        '(_, v) <- getitem bd (n - 1) ;;
        if is_break v then Val (n - 1) else Val n
      else Val n
  | None => Val max_idx
  end.

(** Lines 176-198: [frame_end_idx] after [min(frame_end_idx, max_idx)]. *)
Definition tentative_end (bd : capture) (sync_idx : nat) : exc nat :=
  let current_idx := sync_idx + 2 in
  let max_idx := Nat.min (sync_idx + 11) (length bd) in
  next_sync_idx <- find_next_sync bd current_idx ;;
  frame_end_idx <- sync_boundary bd next_sync_idx max_idx ;;
  Val (Nat.min frame_end_idx max_idx).

(** Lines 203-212: the timing scan.  [Some j] is the index at which the
    loop hit [break]; [None] means the loop ran out. *)
Fixpoint gap_in (bd : capture) (js : list nat) : exc (option nat) :=
  match js with
  | [] => Val None
  | j :: js' =>
      '(current_time, _) <- getitem bd j ;;
      '(next_time, _) <- getitem bd (j + 1) ;;
      let time_gap := (next_time - current_time)%Z in
      if (1000 <? time_gap)%Z then Val (Some j) else gap_in bd js'
  end.

Definition timing_gap (bd : capture) (current_idx frame_end_idx : nat)
    : exc (option nat) :=
  gap_in bd (range current_idx (Nat.min frame_end_idx (length bd) - 1)).

(** Lines 176-212: the finally resolved [frame_end_idx]. *)
Definition frame_end (bd : capture) (sync_idx : nat) : exc nat :=
  frame_end_idx <- tentative_end bd sync_idx ;;
  g <- timing_gap bd (sync_idx + 2) frame_end_idx ;;
  match g with
  | Some j => Val (j + 1)
  | None => Val frame_end_idx
  end.

(** Lines 226-227: [data_bytes.append(self.bytes_data[j][1])] for each [j]. *)
Fixpoint collect (bd : capture) (js : list nat) : exc (list string) :=
  match js with
  | [] => Val []
  | j :: js' =>
      '(_, v) <- getitem bd j ;;
      rest <- collect bd js' ;;
      Val (v :: rest)
  end.

(** Lines 218-228: data bytes and checksum from the resolved end. *)
Definition carve (bd : capture) (current_idx frame_end_idx : nat)
    : exc (list string * string) :=
  if (frame_end_idx <=? current_idx)%nat then
    Val ([], "0x00")
  else if (frame_end_idx =? current_idx + 1)%nat then
    '(_, v) <- getitem bd current_idx ;;
    Val ([], v)
  else
    data_bytes <- collect bd (range current_idx (frame_end_idx - 1)) ;;
    '(_, v) <- getitem bd (frame_end_idx - 1) ;;
    Val (data_bytes, v).

(** Lines 151-156: the byte before the sync, when it is a zero byte. *)
Definition detect_break (bd : capture) (sync_idx : nat) : exc (option string) :=
  if (0 <? sync_idx)%nat then
    '(_, prev_byte) <- getitem bd (sync_idx - 1) ;;
    if is_break prev_byte then Val (Some prev_byte) else Val None
  else Val None.

(** [LINParser._extract_frame]: [Val None] is Python's [return None]. *)
Definition _extract_frame (bd : capture) (sync_idx : nat) : exc (option LINFrame) :=
  if (length bd <=? sync_idx + 2)%nat then Val None
  else
    '(ts, _) <- getitem bd sync_idx ;;
    brk <- detect_break bd sync_idx ;;
    '(_, sy) <- getitem bd sync_idx ;;
    if (length bd <=? sync_idx + 1)%nat then Val None
    else
      '(_, p) <- getitem bd (sync_idx + 1) ;;
      let current_idx := sync_idx + 2 in
      frame_end_idx <- frame_end bd sync_idx ;;
      '(data_bytes, chk) <- carve bd current_idx frame_end_idx ;;
      Val (Some (LINFrame__init__ ts brk sy p data_bytes chk)).

(** ** [parse_frames] *)

(** Lines 117-129, one iteration of the [while] body at cursor [i]: the
    frame appended (if any) and the new cursor.  A [LINFrame] object is
    always truthy, so [if frame:] tests for [None] only. *)
Definition parse_step (bd : capture) (i : nat) : exc (option LINFrame * nat) :=
  '(_, v) <- getitem bd i ;;
  if is_sync v then
    frame <- _extract_frame bd i ;;
    match frame with
    | Some f =>
        let frame_len := 1 + 1 + length (data f) + 1 in
        Val (Some f, i + frame_len)
    | None => Val (None, i + 1)
    end
  else Val (None, i + 1).

(** Lines 116-132.  [None] is reserved for running out of fuel. *)
Fixpoint parse_loop (fuel : nat) (bd : capture) (i : nat)
    (frames : list LINFrame) : option (exc (list LINFrame)) :=
  if (i <? length bd)%nat then
    match fuel with
    | O => None
    | S fuel' =>
        match parse_step bd i with
        | Val (Some f, i') => parse_loop fuel' bd i' (frames ++ [f])
        | Val (None, i') => parse_loop fuel' bd i' frames
        | IndexError => Some IndexError
        end
    end
  else Some (Val frames).

(** The cursor moves by at least one per iteration, so [length bd]
    iterations are enough (theorem [parse_loop_fuel] below). *)
Definition parse_frames (bd : capture) : option (exc (list LINFrame)) :=
  parse_loop (length bd) bd 0 [].

(** ** The run as a trace

    The iterations of the loop started at cursor [i]: each entry is the
    cursor at the loop head and the frame appended in that iteration. *)
Fixpoint trace (fuel : nat) (bd : capture) (i : nat)
    : list (nat * option LINFrame) :=
  match fuel with
  | O => []
  | S fuel' =>
      if (i <? length bd)%nat then
        match parse_step bd i with
        | Val (o, i') => (i, o) :: trace fuel' bd i'
        | IndexError => []
        end
      else []
  end.

Definition run (bd : capture) : list (nat * option LINFrame) :=
  trace (length bd) bd 0.

(** The frames of a trace with their sync indices, in order. *)
Fixpoint emitted (tr : list (nat * option LINFrame)) : list (nat * LINFrame) :=
  match tr with
  | [] => []
  | (s, Some f) :: tr' => (s, f) :: emitted tr'
  | (_, None) :: tr' => emitted tr'
  end.

(** Bytes counted for a frame by the caller's cursor advance. *)
Definition consumed (f : LINFrame) : nat := 2 + length (data f) + 1.

(** ** Vocabulary for the statements *)

Definition value_at (bd : capture) (j : nat) : option string :=
  option_map snd (nth_error bd j).

Definition time_at (bd : capture) (j : nat) : Z :=
  fst (nth j bd (0%Z, "")).

(** The inter-byte gap of the pair [(j, j+1)] exceeds one millisecond. *)
Definition gap_after (bd : capture) (j : nat) : Prop :=
  (time_at bd (j + 1) - time_at bd j > 1000)%Z.

(** The values at indices [a .. b-1]. *)
Definition values (bd : capture) (a b : nat) : list string :=
  map snd (firstn (b - a) (skipn a bd)).

(** What the sync look-ahead found, and the boundary it implies. *)
Definition lookahead_ok (bd : capture) (s : nat) (ns : option nat) (b : nat) : Prop :=
  match ns with
  | Some n =>
      s + 2 <= n < length bd /\
      (exists v, value_at bd n = Some v /\ is_sync v = true) /\
      (forall k v, s + 2 <= k < n -> value_at bd k = Some v -> is_sync v = false) /\
      ((b = n /\ exists v, value_at bd (n - 1) = Some v /\ is_break v = false)
       \/ (b = n - 1 /\ exists v, value_at bd (n - 1) = Some v /\ is_break v = true))
  | None =>
      b = Nat.min (s + 11) (length bd) /\
      (forall k v, s + 2 <= k < length bd -> value_at bd k = Some v ->
                   is_sync v = false)
  end.

(** What the timing scan found below the tentative end [t]. *)
Definition scan_ok (bd : capture) (s t : nat) (g : option nat) : Prop :=
  match g with
  | Some j =>
      s + 2 <= j /\ j + 1 < t /\ gap_after bd j /\
      (forall k, s + 2 <= k < j -> ~ gap_after bd k)
  | None => forall k, s + 2 <= k -> k + 1 < t -> ~ gap_after bd k
  end.

(** The byte before the sync, as [detect_break] reports it. *)
Definition break_ok (bd : capture) (s : nat) (brk : option string) : Prop :=
  match brk with
  | Some v => 0 < s /\ value_at bd (s - 1) = Some v /\ is_break v = true
  | None => s = 0 \/ exists v, value_at bd (s - 1) = Some v /\ is_break v = false
  end.

(** Frames listed with their sync indices, each starting at or after the
    position where the previous one stopped counting. *)
Fixpoint chained (lo : nat) (l : list (nat * LINFrame)) : Prop :=
  match l with
  | [] => True
  | (s, f) :: l' => lo <= s /\ chained (s + consumed f) l'
  end.

(** ** Fixtures *)

Definition scenario_A : capture :=
  [(0, "0x00"); (10, "0x55"); (20, "0x12"); (30, "0xAB")]%Z.

Definition scenario_D : capture :=
  [(0, "0x55"); (10, "0x12")]%Z.

(** Sync at t=0, PID at t=100, then a byte at t=2000 and more bytes before
    the next sync: the 1900 microsecond gap is between PID and first body
    byte. *)
Definition gap_after_pid : capture :=
  [(0, "0x55"); (100, "0x12"); (2000, "0x01"); (2100, "0x02"); (2200, "0x03");
   (2300, "0x55"); (2400, "0x13"); (2500, "0x04")]%Z.

(** The same stream with the 1900 microsecond gap one pair later, between
    the bytes at indices 2 and 3. *)
Definition gap_in_body : capture :=
  [(0, "0x55"); (100, "0x12"); (200, "0x01"); (2100, "0x02"); (2200, "0x03");
   (2300, "0x55"); (2400, "0x13"); (2500, "0x04")]%Z.

(** A zero byte directly after a PID and directly before the next sync. *)
Definition break_after_pid : capture :=
  [(0, "0x55"); (10, "0x12"); (20, "0x00"); (30, "0x55"); (40, "0x13");
   (50, "0xAA")]%Z.

(** A sync byte directly after a PID. *)
Definition sync_after_pid : capture :=
  [(0, "0x55"); (10, "0x12"); (20, "0x55"); (30, "0x13"); (40, "0x14")]%Z.

(** The frame extracted at index 0 of [sync_after_pid] and of
    [break_after_pid]. *)
Definition frame_sentinel : LINFrame :=
  {| timestamp := 0; break_byte := ""; sync := "0x55"; pid := "0x12";
     data := []; checksum := "0x00" |}.

(** The frame extracted at index 3 of [break_after_pid]. *)
Definition frame_after_break : LINFrame :=
  {| timestamp := 30; break_byte := "0x00"; sync := "0x55"; pid := "0x13";
     data := []; checksum := "0xAA" |}.

Definition frame_A : LINFrame :=
  {| timestamp := 10; break_byte := "0x00"; sync := "0x55"; pid := "0x12";
     data := []; checksum := "0xAB" |}.

(** * Serialising a frame: [LINFrame.to_csv_row] *)

(** [str(n)] for a Python integer: decimal digits, a leading [-] for a
    negative number. *)
Definition str_int (z : Z) : string := NilZero.string_of_int (Z.to_int z).

(** [sep.join(l)] *)
Fixpoint join (sep : string) (l : list string) : string :=
  match l with
  | [] => ""
  | [x] => x
  | x :: l' => (x ++ sep ++ join sep l')%string
  end.

(** [LINFrame.to_csv_row], lines 37-47; [if self.data] tests for the empty
    list. *)
Definition to_csv_row (f : LINFrame) : list string :=
  let data_str := match data f with
                  | [] => ""
                  | _ => join "," (data f)
                  end in
  [str_int (timestamp f); break_byte f; sync f; pid f; data_str; checksum f].

(** * Loading a capture: [LINParser.load_capture]

    A character is an [ascii], read as its code point; the capture format
    is plain ASCII text. *)

(** [str.isspace] on one character with code point below 256. *)
Definition isspace (c : ascii) : bool :=
  let n := nat_of_ascii c in
  ((9 <=? n) && (n <=? 13) || (28 <=? n) && (n <=? 32)
   || (n =? 133) || (n =? 160))%nat.

Fixpoint lstrip (s : string) : string :=
  match s with
  | EmptyString => EmptyString
  | String c s' => if isspace c then lstrip s' else s
  end.

Fixpoint rstrip (s : string) : string :=
  match s with
  | EmptyString => EmptyString
  | String c s' =>
      match rstrip s' with
      | EmptyString => if isspace c then EmptyString else String c EmptyString
      | r => String c r
      end
  end.

(** [s.strip()] *)
Definition strip (s : string) : string := rstrip (lstrip s).

(** [s.startswith(p)] *)
Definition startswith (p s : string) : bool := String.prefix p s.

(** [sub in s] *)
Fixpoint contains (sub s : string) : bool :=
  String.prefix sub s ||
  match s with
  | EmptyString => false
  | String _ s' => contains sub s'
  end.

(** [s.split(',')] *)
Fixpoint split_comma (s : string) : list string :=
  match s with
  | EmptyString => [EmptyString]
  | String c s' =>
      if Ascii.eqb c "," then EmptyString :: split_comma s'
      else match split_comma s' with
           | x :: xs => String c x :: xs
           | [] => [String c EmptyString]
           end
  end.

(** [not s] for a string. *)
Definition is_empty (s : string) : bool :=
  match s with
  | EmptyString => true
  | String _ _ => false
  end.

Definition CSV_HEADER : string := "Timestamp_us,Byte_Hex".

(** Lines 72-83: the outcome of the search for the header line. *)
Inductive header_search : Type :=
| HeaderAt (rows : list string)
| EndBeforeHeader
| NoHeader.

(** Lines 73-79; [HeaderAt rows] carries [lines[csv_start:]]. *)
Fixpoint find_header (lines : list string) : header_search :=
  match lines with
  | [] => NoHeader
  | line :: rest =>
      if contains CSV_HEADER line then HeaderAt rest
      else if startswith "===" (strip line) && contains "End" line
           then EndBeforeHeader
           else find_header rest
  end.

Section Loader.

(** [int(s)] of the Python runtime; [None] stands for [ValueError]. *)
Variable py_int : string -> option Z.

(** Lines 86-100: the rows after the header, appended to [bytes_data]. *)
Fixpoint parse_rows (rows : list string) (bytes_data : capture) : capture :=
  match rows with
  | [] => bytes_data
  | line :: rows' =>
      let line := strip line in
      if startswith "===" line || is_empty line then bytes_data
      else
        match split_comma line with
        | [p0; p1] =>
            match py_int p0 with
            | Some timestamp =>
                let byte_hex := strip p1 in
                parse_rows rows' (bytes_data ++ [(timestamp, byte_hex)])
            | None => parse_rows rows' bytes_data
            end
        | _ => parse_rows rows' bytes_data
        end
  end.

(** [load_capture] on the lines read from the file, started with
    [self.bytes_data = bytes_data]: the returned flag and the new
    [self.bytes_data]. *)
Definition load_capture (lines : list string) (bytes_data : capture)
    : bool * capture :=
  match find_header lines with
  | HeaderAt rows =>
      let bytes_data' := parse_rows rows bytes_data in
      ((0 <? length bytes_data')%nat, bytes_data')
  | EndBeforeHeader => (false, bytes_data)
  | NoHeader => (false, bytes_data)
  end.

End Loader.

(** Decimal reading of a string, the inverse of [str_int]. *)
Definition int_of_decimal (s : string) : option Z :=
  option_map Z.of_int (NilZero.int_of_string s).

(** ** Vocabulary for the loader *)

Fixpoint all_chars (p : ascii -> bool) (s : string) : bool :=
  match s with
  | EmptyString => true
  | String c s' => p c && all_chars p s'
  end.

(** A field of a data row: not empty, no white space, no comma. *)
Definition clean (s : string) : bool :=
  negb (is_empty s) &&
  all_chars (fun c => negb (isspace c) && negb (Ascii.eqb c ",")) s.

(** One data row of a capture file: the timestamp as written, its value,
    the byte token, and the line end. *)
Record row : Type := {
  row_stamp : string;
  row_time : Z;
  row_byte : string;
  row_eol : string
}.

Definition row_line (r : row) : string :=
  (row_stamp r ++ "," ++ row_byte r ++ row_eol r)%string.

Definition row_ok (py_int : string -> option Z) (r : row) : Prop :=
  clean (row_stamp r) = true /\ clean (row_byte r) = true /\
  all_chars isspace (row_eol r) = true /\
  startswith "===" (row_stamp r) = false /\
  py_int (row_stamp r) = Some (row_time r).

(** A line at which the row loop stops. *)
Definition stops (line : string) : bool :=
  startswith "===" (strip line) || is_empty (strip line).

(** A line the header search steps over. *)
Definition passed_over (line : string) : bool :=
  negb (contains CSV_HEADER line) &&
  negb (startswith "===" (strip line) && contains "End" line).

(** A data token of a frame: not empty and without a comma. *)
Definition token (s : string) : bool :=
  negb (is_empty s) && all_chars (fun c => negb (Ascii.eqb c ",")) s.

(** A capture file holding scenario A: a title line, the header, four
    rows and the end marker, each line ending in a newline. *)
Definition eol : string := String (ascii_of_nat 10) EmptyString.

Definition rows_A : list row :=
  [ {| row_stamp := "0"; row_time := 0; row_byte := "0x00"; row_eol := eol |};
    {| row_stamp := "10"; row_time := 10; row_byte := "0x55"; row_eol := eol |};
    {| row_stamp := "20"; row_time := 20; row_byte := "0x12"; row_eol := eol |};
    {| row_stamp := "30"; row_time := 30; row_byte := "0xAB"; row_eol := eol |} ].

Definition file_A : list string :=
  [("=== LIN Capture ===" ++ eol)%string] ++
  (CSV_HEADER ++ eol)%string :: map row_line rows_A ++
  [("=== End ===" ++ eol)%string; ("40,0x01" ++ eol)%string].

(** ** Subscripts and ranges *)

Lemma getitem_Val {A : Type} (xs : list A) (i : nat) (x : A) :
  getitem xs i = Val x <-> nth_error xs i = Some x.
Proof.
  unfold getitem. destruct (nth_error xs i); split; intro H;
    inversion H; reflexivity.
Qed.

Lemma getitem_in_range {A : Type} (xs : list A) (i : nat) :
  i < length xs -> exists x, getitem xs i = Val x /\ nth_error xs i = Some x.
Proof.
  intro H. apply nth_error_Some in H. unfold getitem.
  destruct (nth_error xs i) as [x|]; [ | congruence ].
  exists x. split; reflexivity.
Qed.

Lemma time_at_nth (bd : capture) (j : nat) (t : Z) (v : string) :
  nth_error bd j = Some (t, v) -> time_at bd j = t.
Proof.
  intro H. unfold time_at.
  rewrite (nth_error_nth bd j _ H). reflexivity.
Qed.

Lemma value_at_nth (bd : capture) (j : nat) (t : Z) (v : string) :
  nth_error bd j = Some (t, v) -> value_at bd j = Some v.
Proof. intro H. unfold value_at. rewrite H. reflexivity. Qed.

Lemma skipn_cons_nth {A : Type} (xs : list A) (a : nat) (x : A) :
  nth_error xs a = Some x -> skipn a xs = x :: skipn (S a) xs.
Proof.
  revert xs. induction a as [|a IH]; intros [|y ys] H; simpl in *;
    try discriminate.
  - inversion H. reflexivity.
  - apply IH in H. rewrite H. destruct ys; reflexivity.
Qed.

Lemma range_nil (a b : nat) : b <= a -> range a b = [].
Proof. intro H. unfold range. replace (b - a) with 0 by lia. reflexivity. Qed.

(** ** The look-ahead loops never leave the capture *)

Lemma find_sync_in_spec (bd : capture) (n a : nat) :
  a + n <= length bd ->
  exists r, find_sync_in bd (seq a n) = Val r /\
    match r with
    | Some m =>
        a <= m < a + n /\
        (exists v, value_at bd m = Some v /\ is_sync v = true) /\
        (forall k v, a <= k < m -> value_at bd k = Some v -> is_sync v = false)
    | None =>
        forall k v, a <= k < a + n -> value_at bd k = Some v -> is_sync v = false
    end.
Proof.
  revert a. induction n as [|n IH]; intros a Hlen; simpl.
  - exists None. split; [reflexivity | intros; lia].
  - destruct (getitem_in_range bd a) as [[t v] [Hg Hn]]; [lia|].
    rewrite Hg. simpl. destruct (is_sync v) eqn:Hs.
    + exists (Some a). split; [reflexivity|]. split; [lia|]. split.
      * exists v. split; [eapply value_at_nth; eassumption | assumption].
      * intros; lia.
    + destruct (IH (S a)) as [r [Hr Hspec]]; [lia|].
      exists r. split; [assumption|].
      assert (Hhere : forall k w, k = a -> value_at bd k = Some w ->
                                  is_sync w = false).
      { intros k w -> Hw. rewrite (value_at_nth _ _ _ _ Hn) in Hw.
        inversion Hw; subst; assumption. }
      destruct r as [m|].
      * destruct Hspec as [Hm [Hv Hbefore]]. split; [lia|]. split; [assumption|].
        intros k w Hk Hw. destruct (Nat.eq_dec k a) as [->|Hne].
        -- eapply Hhere; eauto.
        -- apply (Hbefore k w); [lia | assumption].
      * intros k w Hk Hw. destruct (Nat.eq_dec k a) as [->|Hne].
        -- eapply Hhere; eauto.
        -- apply (Hspec k w); [lia | assumption].
Qed.

Lemma gap_in_spec (bd : capture) (n a : nat) :
  a + n + 1 <= length bd \/ n = 0 ->
  exists r, gap_in bd (seq a n) = Val r /\
    match r with
    | Some j =>
        a <= j < a + n /\ gap_after bd j /\
        (forall k, a <= k < j -> ~ gap_after bd k)
    | None => forall k, a <= k < a + n -> ~ gap_after bd k
    end.
Proof.
  revert a. induction n as [|n IH]; intros a Hlen; simpl.
  - exists None. split; [reflexivity | intros; lia].
  - destruct Hlen as [Hlen | Hlen]; [ | discriminate ].
    destruct (getitem_in_range bd a) as [[t v] [Hg Hn]]; [lia|].
    destruct (getitem_in_range bd (a + 1)) as [[t' v'] [Hg' Hn']]; [lia|].
    rewrite Hg. simpl. rewrite Hg'. simpl.
    assert (Hgap : gap_after bd a <-> (1000 < t' - t)%Z).
    { unfold gap_after. rewrite (time_at_nth _ _ _ _ Hn), (time_at_nth _ _ _ _ Hn').
      lia. }
    destruct (1000 <? t' - t)%Z eqn:Hc.
    + apply Z.ltb_lt in Hc. exists (Some a). split; [reflexivity|].
      split; [lia|]. split; [apply Hgap; assumption | intros; lia].
    + apply Z.ltb_ge in Hc.
      destruct (IH (S a)) as [r [Hr Hspec]]; [left; lia|].
      exists r. split; [assumption|].
      assert (Hhere : ~ gap_after bd a) by (rewrite Hgap; lia).
      destruct r as [j|].
      * destruct Hspec as [Hj [Hgj Hbefore]]. split; [lia|]. split; [assumption|].
        intros k Hk. destruct (Nat.eq_dec k a) as [->|Hne];
          [assumption | apply Hbefore; lia].
      * intros k Hk. destruct (Nat.eq_dec k a) as [->|Hne];
          [assumption | apply Hspec; lia].
Qed.

Lemma collect_spec (bd : capture) (n a : nat) :
  a + n <= length bd ->
  collect bd (seq a n) = Val (map snd (firstn n (skipn a bd))).
Proof.
  revert a. induction n as [|n IH]; intros a Hlen; simpl.
  - reflexivity.
  - destruct (getitem_in_range bd a) as [[t v] [Hg Hn]]; [lia|].
    rewrite Hg. simpl. rewrite IH by lia. simpl.
    rewrite (skipn_cons_nth _ _ _ Hn). reflexivity.
Qed.

(** ** The stages of boundary resolution *)

Lemma sync_boundary_spec (bd : capture) (n m : nat) :
  n < length bd ->
  exists b, sync_boundary bd (Some n) m = Val b /\
    ((b = n /\ (n = 0 \/ exists v, value_at bd (n - 1) = Some v /\ is_break v = false))
     \/ (0 < n /\ b = n - 1 /\
         exists v, value_at bd (n - 1) = Some v /\ is_break v = true)).
Proof.
  intro Hn. unfold sync_boundary.
  destruct (0 <? n)%nat eqn:Hpos.
  - apply Nat.ltb_lt in Hpos.
    destruct (getitem_in_range bd (n - 1)) as [[t v] [Hg Hnth]]; [lia|].
    rewrite Hg. simpl. destruct (is_break v) eqn:Hb.
    + exists (n - 1). split; [reflexivity|]. right. split; [assumption|].
      split; [reflexivity|]. exists v.
      split; [eapply value_at_nth; eassumption | assumption].
    + exists n. split; [reflexivity|]. left. split; [reflexivity|]. right.
      exists v. split; [eapply value_at_nth; eassumption | assumption].
  - apply Nat.ltb_ge in Hpos. exists n. split; [reflexivity|].
    left. split; [reflexivity | left; lia].
Qed.

Lemma tentative_end_spec (bd : capture) (s : nat) :
  s + 2 <= length bd ->
  exists ns b,
    find_next_sync bd (s + 2) = Val ns /\
    sync_boundary bd ns (Nat.min (s + 11) (length bd)) = Val b /\
    lookahead_ok bd s ns b /\
    tentative_end bd s = Val (Nat.min b (Nat.min (s + 11) (length bd))).
Proof.
  intro Hs. unfold tentative_end, find_next_sync, range.
  destruct (find_sync_in_spec bd (length bd - (s + 2)) (s + 2)) as [ns [Hf Hspec]];
    [lia|].
  rewrite Hf. simpl. exists ns.
  destruct ns as [n|].
  - destruct Hspec as [Hn [Hv Hbefore]].
    destruct (sync_boundary_spec bd n (Nat.min (s + 11) (length bd)))
      as [b [Hb Hcase]]; [lia|].
    exists b. rewrite Hb. simpl.
    split; [reflexivity|]. split; [reflexivity|]. split; [|reflexivity].
    split; [lia|]. split; [assumption|]. split; [assumption|].
    destruct Hcase as [[-> [H0 | Hv']] | [Hpos [-> Hv']]].
    + lia.
    + left. split; [reflexivity | assumption].
    + right. split; [reflexivity | assumption].
  - exists (Nat.min (s + 11) (length bd)). simpl.
    split; [reflexivity|]. split; [reflexivity|]. split; [|reflexivity].
    split; [reflexivity|]. intros k v Hk. apply Hspec. lia.
Qed.

Lemma timing_gap_spec (bd : capture) (s t : nat) :
  t <= length bd ->
  exists g, timing_gap bd (s + 2) t = Val g /\ scan_ok bd s t g.
Proof.
  intro Ht. unfold timing_gap, range.
  rewrite (Nat.min_l t (length bd)) by assumption.
  destruct (gap_in_spec bd (t - 1 - (s + 2)) (s + 2)) as [g [Hg Hspec]];
    [lia|].
  exists g. split; [assumption|].
  destruct g as [j|]; simpl.
  - destruct Hspec as [Hj [Hgap Hbefore]].
    split; [lia|]. split; [lia|]. split; assumption.
  - intros k Hk Hk'. apply Hspec. lia.
Qed.

Lemma frame_end_spec (bd : capture) (s : nat) :
  s + 2 <= length bd ->
  exists ns b t g,
    find_next_sync bd (s + 2) = Val ns /\
    lookahead_ok bd s ns b /\
    t = Nat.min b (Nat.min (s + 11) (length bd)) /\
    tentative_end bd s = Val t /\
    timing_gap bd (s + 2) t = Val g /\
    scan_ok bd s t g /\
    frame_end bd s = Val (match g with Some j => j + 1 | None => t end).
Proof.
  intro Hs.
  destruct (tentative_end_spec bd s Hs) as [ns [b [Hf [_ [Hok Ht]]]]].
  set (t := Nat.min b (Nat.min (s + 11) (length bd))) in *.
  destruct (timing_gap_spec bd s t) as [g [Hg Hscan]]; [subst t; lia|].
  exists ns, b, t, g. unfold frame_end. rewrite Ht. simpl. rewrite Hg. simpl.
  repeat (split; [first [assumption | reflexivity]|]).
  destruct g; reflexivity.
Qed.

(** The resolved end never passes the hard cap nor the end of the capture. *)
Lemma frame_end_le_cap (bd : capture) (s e : nat) :
  s + 2 <= length bd ->
  frame_end bd s = Val e -> e <= Nat.min (s + 11) (length bd).
Proof.
  intros Hs He.
  destruct (frame_end_spec bd s Hs) as [ns [b [t [g [_ [_ [Ht [_ [_ [Hscan Hfe]]]]]]]]]].
  rewrite Hfe in He. inversion He; subst e.
  destruct g as [j|]; simpl in Hscan; lia.
Qed.

Lemma carve_spec (bd : capture) (s e : nat) :
  e <= length bd ->
  exists d c, carve bd (s + 2) e = Val (d, c) /\
    length d = e - (s + 3) /\
    ((e <= s + 2 /\ d = [] /\ c = "0x00")
     \/ (s + 3 <= e /\ d = values bd (s + 2) (e - 1) /\
         value_at bd (e - 1) = Some c)).
Proof.
  intro He. unfold carve.
  destruct (e <=? s + 2)%nat eqn:Hdeg.
  - apply Nat.leb_le in Hdeg. exists [], "0x00".
    split; [reflexivity|]. split; [simpl; lia|]. left. auto.
  - apply Nat.leb_gt in Hdeg.
    destruct (e =? s + 2 + 1)%nat eqn:Hone.
    + apply Nat.eqb_eq in Hone.
      destruct (getitem_in_range bd (s + 2)) as [[t v] [Hg Hn]]; [lia|].
      rewrite Hg. simpl. exists [], v. split; [reflexivity|].
      split; [simpl; lia|]. right. split; [lia|]. split.
      * unfold values. replace (e - 1 - (s + 2)) with 0 by lia. reflexivity.
      * replace (e - 1) with (s + 2) by lia. eapply value_at_nth; eassumption.
    + apply Nat.eqb_neq in Hone. unfold range.
      rewrite collect_spec by lia. simpl.
      destruct (getitem_in_range bd (e - 1)) as [[t v] [Hg Hn]]; [lia|].
      rewrite Hg. simpl.
      exists (map snd (firstn (e - 1 - (s + 2)) (skipn (s + 2) bd))), v.
      split; [reflexivity|]. split.
      * rewrite length_map, length_firstn, length_skipn. lia.
      * right. split; [lia|]. split; [reflexivity|].
        eapply value_at_nth; eassumption.
Qed.

(** ** Extraction at one sync index *)

Lemma detect_break_spec (bd : capture) (s : nat) :
  s < length bd ->
  exists brk, detect_break bd s = Val brk /\ break_ok bd s brk.
Proof.
  intro Hs. unfold detect_break.
  destruct (0 <? s)%nat eqn:Hpos.
  - apply Nat.ltb_lt in Hpos.
    destruct (getitem_in_range bd (s - 1)) as [[t v] [Hg Hn]]; [lia|].
    rewrite Hg. simpl. apply value_at_nth in Hn.
    destruct (is_break v) eqn:Hb.
    + exists (Some v). split; [reflexivity|]. simpl. auto.
    + exists None. split; [reflexivity|]. simpl. right. exists v. auto.
  - apply Nat.ltb_ge in Hpos. exists None. split; [reflexivity|].
    simpl. left. lia.
Qed.

Lemma extract_none (bd : capture) (s : nat) :
  length bd <= s + 2 -> _extract_frame bd s = Val None.
Proof.
  intro H. unfold _extract_frame.
  apply Nat.leb_le in H. rewrite H. reflexivity.
Qed.

Lemma extract_spec (bd : capture) (s : nat) :
  s + 2 < length bd ->
  exists ts sy t1 p brk e d c,
    nth_error bd s = Some (ts, sy) /\
    nth_error bd (s + 1) = Some (t1, p) /\
    detect_break bd s = Val brk /\
    frame_end bd s = Val e /\
    carve bd (s + 2) e = Val (d, c) /\
    _extract_frame bd s = Val (Some (LINFrame__init__ ts brk sy p d c)).
Proof.
  intro Hs. unfold _extract_frame.
  destruct (length bd <=? s + 2)%nat eqn:H2; [apply Nat.leb_le in H2; lia|].
  destruct (length bd <=? s + 1)%nat eqn:H1; [apply Nat.leb_le in H1; lia|].
  destruct (getitem_in_range bd s) as [[ts sy] [Hg Hn]]; [lia|].
  destruct (getitem_in_range bd (s + 1)) as [[t1 p] [Hg1 Hn1]]; [lia|].
  destruct (detect_break_spec bd s) as [brk [Hb _]]; [lia|].
  destruct (frame_end_spec bd s) as [ns [b [t [g [_ [_ [Ht [_ [_ [Hscan Hfe]]]]]]]]]];
    [lia|].
  set (e := match g with Some j => j + 1 | None => t end) in *.
  assert (He : e <= length bd).
  { apply (frame_end_le_cap bd s e) in Hfe; lia. }
  destruct (carve_spec bd s e He) as [d [c [Hc _]]].
  exists ts, sy, t1, p, brk, e, d, c.
  rewrite Hg. simpl. rewrite Hb. simpl. rewrite Hg1. simpl.
  rewrite Hfe. simpl. rewrite Hc. simpl.
  repeat (split; [first [assumption | reflexivity]|]). reflexivity.
Qed.

Lemma init_data ts brk sy p d c : data (LINFrame__init__ ts brk sy p d c) = d.
Proof. reflexivity. Qed.

Lemma init_checksum ts brk sy p d c : checksum (LINFrame__init__ ts brk sy p d c) = c.
Proof. reflexivity. Qed.

Lemma init_break ts brk sy p d c :
  break_byte (LINFrame__init__ ts brk sy p d c) =
  match brk with Some b => b | None => "" end.
Proof. destruct brk as [[|a b]|]; reflexivity. Qed.

(** Extraction at [s] with its resolved end [e]: the shape of the frame. *)
Lemma extract_shape (bd : capture) (s : nat) :
  s + 2 < length bd ->
  exists f e,
    _extract_frame bd s = Val (Some f) /\
    frame_end bd s = Val e /\
    e <= Nat.min (s + 11) (length bd) /\
    length (data f) = e - (s + 3) /\
    ((e <= s + 2 /\ data f = [] /\ checksum f = "0x00")
     \/ (s + 3 <= e /\ data f = values bd (s + 2) (e - 1) /\
         value_at bd (e - 1) = Some (checksum f))) /\
    value_at bd s = Some (sync f) /\
    value_at bd (s + 1) = Some (pid f) /\
    (exists brk, break_ok bd s brk /\
                 break_byte f = match brk with Some b => b | None => "" end).
Proof.
  intro Hs.
  destruct (extract_spec bd s Hs) as [ts [sy [t1 [p [brk [e [d [c H]]]]]]]].
  destruct H as [Hn [Hn1 [Hb [Hfe [Hc Hx]]]]].
  assert (He : e <= Nat.min (s + 11) (length bd))
    by (apply (frame_end_le_cap bd s e); [lia | assumption]).
  destruct (carve_spec bd s e) as [d' [c' [Hc' [Hlen Hcase]]]]; [lia|].
  rewrite Hc in Hc'. inversion Hc'; subst d' c'.
  destruct (detect_break_spec bd s) as [brk' [Hb' Hbok]]; [lia|].
  rewrite Hb in Hb'. inversion Hb'; subst brk'.
  exists (LINFrame__init__ ts brk sy p d c), e.
  rewrite init_data, init_checksum, init_break.
  split; [assumption|]. split; [assumption|]. split; [assumption|].
  split; [assumption|]. split; [assumption|].
  split; [eapply value_at_nth; eassumption|].
  split; [eapply value_at_nth; eassumption|].
  exists brk. split; [assumption | reflexivity].
Qed.

(** ** One iteration of the scan *)

Lemma parse_step_spec (bd : capture) (i : nat) :
  i < length bd ->
  (exists f, parse_step bd i = Val (Some f, i + consumed f) /\
             _extract_frame bd i = Val (Some f) /\ i + 2 < length bd /\
             exists v, value_at bd i = Some v /\ is_sync v = true)
  \/ (parse_step bd i = Val (None, i + 1) /\
      (length bd <= i + 2 \/ exists v, value_at bd i = Some v /\ is_sync v = false)).
Proof.
  intro Hi. unfold parse_step.
  destruct (getitem_in_range bd i Hi) as [[t v] [Hg Hn]].
  rewrite Hg. simpl. apply value_at_nth in Hn.
  destruct (is_sync v) eqn:Hsync.
  - destruct (Nat.le_gt_cases (length bd) (i + 2)) as [Hshort | Hlong].
    + rewrite (extract_none bd i Hshort). simpl. right. auto.
    + destruct (extract_shape bd i Hlong) as [f [e [Hx _]]].
      rewrite Hx. simpl. left. exists f.
      split; [reflexivity|]. split; [reflexivity|]. split; [assumption|].
      exists v. auto.
  - right. split; [reflexivity|]. right. exists v. auto.
Qed.

Lemma parse_step_progress (bd : capture) (i : nat) :
  i < length bd ->
  exists o i', parse_step bd i = Val (o, i') /\ i < i' /\
    i' = match o with Some f => i + consumed f | None => i + 1 end.
Proof.
  intro Hi. destruct (parse_step_spec bd i Hi) as [[f [Hp _]] | [Hp _]].
  - exists (Some f), (i + consumed f). split; [assumption|].
    split; [unfold consumed; lia | reflexivity].
  - exists None, (i + 1). split; [assumption|]. split; [lia | reflexivity].
Qed.

(** ** The loop *)

Lemma parse_loop_trace (bd : capture) (fuel i : nat) (acc : list LINFrame) :
  length bd - i <= fuel ->
  parse_loop fuel bd i acc =
  Some (Val (acc ++ map snd (emitted (trace fuel bd i)))).
Proof.
  revert i acc. induction fuel as [|fuel IH]; intros i acc Hfuel.
  - simpl. destruct (i <? length bd)%nat eqn:Hi.
    + apply Nat.ltb_lt in Hi. lia.
    + rewrite app_nil_r. reflexivity.
  - simpl. destruct (i <? length bd)%nat eqn:Hi.
    + apply Nat.ltb_lt in Hi.
      destruct (parse_step_progress bd i Hi) as [o [i' [Hp [Hlt _]]]].
      rewrite Hp. destruct o as [f|].
      * rewrite IH by lia. simpl. rewrite <- app_assoc. reflexivity.
      * rewrite IH by lia. reflexivity.
    + rewrite app_nil_r. reflexivity.
Qed.

Lemma parse_loop_fuel_mono (bd : capture) (fuel k i : nat)
    (acc : list LINFrame) (r : exc (list LINFrame)) :
  parse_loop fuel bd i acc = Some r ->
  parse_loop (fuel + k) bd i acc = Some r.
Proof.
  revert i acc. induction fuel as [|fuel IH]; intros i acc H.
  - simpl in H. destruct (i <? length bd)%nat eqn:Hi; [discriminate|].
    destruct k; simpl; rewrite Hi; assumption.
  - simpl in *. destruct (i <? length bd)%nat; [|assumption].
    destruct (parse_step bd i) as [[[f|] i']|]; auto.
Qed.

(** ** Traces *)

Lemma trace_cursor_ge (bd : capture) (fuel i k : nat) (o : option LINFrame) :
  In (k, o) (trace fuel bd i) -> i <= k < length bd.
Proof.
  revert i. induction fuel as [|fuel IH]; intros i H; simpl in H; [tauto|].
  destruct (i <? length bd)%nat eqn:Hi; [|contradiction].
  apply Nat.ltb_lt in Hi.
  destruct (parse_step_progress bd i Hi) as [o' [i' [Hp [Hlt _]]]].
  rewrite Hp in H. destruct H as [H | H].
  - inversion H; subst. lia.
  - apply IH in H. lia.
Qed.

Lemma trace_step (bd : capture) (fuel i k : nat) (o : option LINFrame) :
  In (k, o) (trace fuel bd i) -> exists k', parse_step bd k = Val (o, k').
Proof.
  revert i. induction fuel as [|fuel IH]; intros i H; simpl in H; [tauto|].
  destruct (i <? length bd)%nat eqn:Hi; [|contradiction].
  destruct (parse_step bd i) as [[o' i']|] eqn:Hp; [|contradiction].
  destruct H as [H | H].
  - inversion H; subst. exists i'. assumption.
  - eapply IH; eassumption.
Qed.

Lemma emitted_In (tr : list (nat * option LINFrame)) (s : nat) (f : LINFrame) :
  In (s, f) (emitted tr) <-> In (s, Some f) tr.
Proof.
  induction tr as [|[k [g|]] tr IH]; simpl.
  - tauto.
  - rewrite IH. split; intros [H | H]; auto; left; inversion H; reflexivity.
  - rewrite IH. split; [auto | intros [H | H]; [discriminate | assumption]].
Qed.

Lemma chained_weaken (lo lo' : nat) (l : list (nat * LINFrame)) :
  lo' <= lo -> chained lo l -> chained lo' l.
Proof. destruct l as [|[s f] l]; simpl; [tauto | intros; split; [lia | tauto]]. Qed.

Lemma trace_chained (bd : capture) (fuel i : nat) :
  chained i (emitted (trace fuel bd i)).
Proof.
  revert i. induction fuel as [|fuel IH]; intro i; simpl; [exact I|].
  destruct (i <? length bd)%nat eqn:Hi; [|exact I].
  apply Nat.ltb_lt in Hi.
  destruct (parse_step_progress bd i Hi) as [o [i' [Hp [Hlt Hi']]]].
  rewrite Hp. destruct o as [f|]; simpl.
  - split; [lia|]. subst i'. apply IH.
  - apply chained_weaken with (lo := i'); [lia | apply IH].
Qed.

Lemma chained_In (lo s : nat) (f : LINFrame) (l : list (nat * LINFrame)) :
  chained lo l -> In (s, f) l -> lo <= s.
Proof.
  revert lo. induction l as [|[s' f'] l IH]; intros lo Hc Hin; simpl in *.
  - contradiction.
  - destruct Hc as [Hlo Hc]. destruct Hin as [Hin | Hin].
    + inversion Hin; subst. assumption.
    + apply IH with (lo := s' + consumed f') in Hin; [|assumption].
      unfold consumed in Hin. lia.
Qed.

Lemma chained_consecutive (lo s1 s2 : nat) (f1 f2 : LINFrame)
    (l1 l2 : list (nat * LINFrame)) :
  chained lo (l1 ++ (s1, f1) :: (s2, f2) :: l2) -> s1 + consumed f1 <= s2.
Proof.
  revert lo. induction l1 as [|[s f] l1 IH]; intros lo H; simpl in H.
  - tauto.
  - destruct H as [_ H]. eapply IH; eassumption.
Qed.

(** A position the scan stepped over lies outside every other iteration. *)
Lemma trace_skips (bd : capture) (fuel i s s' k : nat) (o o' : option LINFrame) :
  In (s, o) (trace fuel bd i) ->
  parse_step bd s = Val (o, s') ->
  In (k, o') (trace fuel bd i) ->
  k <= s \/ s' <= k.
Proof.
  revert i. induction fuel as [|fuel IH]; intros i Hs Hp Hk; simpl in *; [tauto|].
  destruct (i <? length bd)%nat eqn:Hi; [|contradiction].
  apply Nat.ltb_lt in Hi.
  destruct (parse_step_progress bd i Hi) as [o0 [i0 [Hp0 [Hlt _]]]].
  rewrite Hp0 in Hs, Hk.
  destruct Hs as [Hs | Hs]; destruct Hk as [Hk | Hk].
  - inversion Hs; inversion Hk; subst. left. lia.
  - inversion Hs; subst. rewrite Hp0 in Hp. inversion Hp; subst.
    apply trace_cursor_ge in Hk. right. lia.
  - inversion Hk; subst. apply trace_cursor_ge in Hs. left. lia.
  - eapply IH; eassumption.
Qed.

Lemma parse_frames_run (bd : capture) :
  parse_frames bd = Some (Val (map snd (emitted (run bd)))).
Proof.
  unfold parse_frames, run. rewrite parse_loop_trace by lia. reflexivity.
Qed.

Lemma extract_some_long (bd : capture) (s : nat) (f : LINFrame) :
  _extract_frame bd s = Val (Some f) -> s + 2 < length bd.
Proof.
  intro H. destruct (Nat.le_gt_cases (length bd) (s + 2)) as [Hshort|Hlong];
    [|assumption].
  rewrite (extract_none bd s Hshort) in H. discriminate.
Qed.

Lemma parse_step_some (bd : capture) (s i' : nat) (f : LINFrame) :
  parse_step bd s = Val (Some f, i') ->
  _extract_frame bd s = Val (Some f) /\ i' = s + consumed f.
Proof.
  unfold parse_step. intro H.
  destruct (getitem bd s) as [[t v]|]; simpl in H; [|discriminate].
  destruct (is_sync v); [|discriminate].
  destruct (_extract_frame bd s) as [[g|]|]; simpl in H; try discriminate.
  inversion H; subst. split; reflexivity.
Qed.

(** ** Scenario A *)

(** C8. On the input [(0,"0x00"), (10,"0x55"), (20,"0x12"), (30,"0xAB")]
    the scan emits exactly one frame, at the sync byte of index 1, with the
    break marker present, sync 0x55, pid 0x12, no data and checksum 0xAB. *)
Theorem scenario_A_one_frame :
  parse_frames scenario_A = Some (Val [frame_A]) /\
  emitted (run scenario_A) = [(1, frame_A)] /\
  break_byte frame_A = "0x00" /\ sync frame_A = "0x55" /\
  pid frame_A = "0x12" /\ data frame_A = [] /\ checksum frame_A = "0xAB".
Proof. repeat split. Qed.

(** ** Failure of extraction *)

(** C2, as the code has it. Extraction at [s] returns no frame exactly when
    [s + 2 >= length], that is when fewer than two bytes follow the sync
    byte; the scan then advances by one.  With at least two bytes after the
    sync byte it produces a frame.  On [(0,"0x55"), (10,"0x12")] extraction
    fails and no frame is emitted. *)
Theorem extraction_fails_iff_short (bd : capture) (s : nat) :
  (_extract_frame bd s = Val None <-> length bd <= s + 2) /\
  (s + 2 < length bd -> exists f, _extract_frame bd s = Val (Some f)) /\
  (s < length bd -> length bd <= s + 2 -> parse_step bd s = Val (None, s + 1)) /\
  _extract_frame scenario_D 0 = Val None /\
  parse_frames scenario_D = Some (Val []).
Proof.
  split; [|split; [|split; [|split; reflexivity]]].
  - split; [|apply extract_none].
    intro H. destruct (Nat.le_gt_cases (length bd) (s + 2)) as [Hshort|Hlong];
      [assumption|].
    destruct (extract_shape bd s Hlong) as [f [e [Hx _]]].
    rewrite Hx in H. discriminate.
  - intro Hlong. destruct (extract_shape bd s Hlong) as [f [e [Hx _]]].
    exists f. assumption.
  - intros Hs Hshort.
    destruct (parse_step_spec bd s Hs) as [[f [_ [_ [Hlong _]]]] | [Hp _]];
      [lia | assumption].
Qed.

Lemma extraction_fails_iff_short_witness :
  exists f, _extract_frame scenario_A 1 = Val (Some f).
Proof.
  apply (proj1 (proj2 (extraction_fails_iff_short scenario_A 1))).
  simpl. lia.
Defined.

(** C2, counterexample. On [(0,"0x55"), (10,"0x12")] the sync index 0
    satisfies [s + 2 <= length], and extraction fails all the same. *)
Lemma scenario_D_fails_inside_stated_precondition :
  0 + 2 <= length scenario_D /\ _extract_frame scenario_D 0 = Val None.
Proof. split; [simpl; lia | reflexivity]. Qed.

(** ** The cap *)

(** C4. Every frame the scan emits carries at most 8 data bytes and counts
    at most 11 bytes from its sync index [s]; the counted bytes stay below
    [s + 11] and inside the capture. *)
Theorem cap_invariant (bd : capture) (frames : list LINFrame) (f : LINFrame) :
  parse_frames bd = Some (Val frames) ->
  In f frames ->
  length (data f) <= 8 /\
  2 + length (data f) + 1 <= 11 /\
  exists s,
    In (s, f) (emitted (run bd)) /\
    _extract_frame bd s = Val (Some f) /\
    s + (2 + length (data f) + 1) <= Nat.min (s + 11) (length bd).
Proof.
  intros Hrun Hin. rewrite parse_frames_run in Hrun. inversion Hrun; subst frames.
  apply in_map_iff in Hin. destruct Hin as [[s f'] [Hf Hin]]. simpl in Hf. subst f'.
  pose proof Hin as Hem. apply emitted_In in Hin.
  destruct (trace_step _ _ _ _ _ Hin) as [k' Hp].
  apply parse_step_some in Hp. destruct Hp as [Hx _].
  pose proof (extract_some_long _ _ _ Hx) as Hlong.
  destruct (extract_shape bd s Hlong) as [g [e [Hx' [_ [He [Hlen _]]]]]].
  rewrite Hx in Hx'. inversion Hx'; subst g.
  assert (Hd : length (data f) <= 8) by lia.
  split; [assumption|]. split; [lia|].
  exists s. split; [assumption|]. split; [assumption|]. lia.
Qed.

Lemma cap_invariant_witness :
  length (data frame_A) <= 8 /\
  2 + length (data frame_A) + 1 <= 11 /\
  exists s,
    In (s, frame_A) (emitted (run scenario_A)) /\
    _extract_frame scenario_A s = Val (Some frame_A) /\
    s + (2 + length (data frame_A) + 1) <= Nat.min (s + 11) (length scenario_A).
Proof.
  apply (cap_invariant scenario_A [frame_A] frame_A).
  - reflexivity.
  - simpl. left. reflexivity.
Defined.

(** ** Timing gaps *)

(** C1, as the code has it. If some pair [(j, j+1)] with [s + 2 <= j] and
    [j + 1] below the tentative end (the clamped sync look-ahead boundary)
    is more than 1000 microseconds apart, the frame ends at the first such
    pair [(j0, j0+1)]: the resolved end is [j0 + 1], short of the tentative
    end, the data bytes are those at [s+2 .. j0-1] and the checksum is the
    byte at [j0], the last one before the gap. *)
Theorem timing_gap_first_wins (bd : capture) (s t j : nat) :
  s + 2 < length bd ->
  tentative_end bd s = Val t ->
  s + 2 <= j -> j + 1 < t ->
  gap_after bd j ->
  exists j0 f,
    s + 2 <= j0 <= j /\
    gap_after bd j0 /\
    (forall k, s + 2 <= k < j0 -> ~ gap_after bd k) /\
    frame_end bd s = Val (j0 + 1) /\ j0 + 1 < t /\
    _extract_frame bd s = Val (Some f) /\
    data f = values bd (s + 2) j0 /\
    value_at bd j0 = Some (checksum f) /\
    s + consumed f = j0 + 1.
Proof.
  intros Hs Ht Hj Hjt Hgap.
  destruct (frame_end_spec bd s) as [ns [b [t' [g [_ [_ [_ [Ht' [_ [Hscan Hfe]]]]]]]]]];
    [lia|].
  rewrite Ht in Ht'. inversion Ht'; subst t'.
  destruct g as [j0|]; simpl in Hscan.
  2:{ exfalso. apply (Hscan j); assumption. }
  destruct Hscan as [Hlo [Hhi [Hg0 Hbefore]]].
  assert (Hle : j0 <= j).
  { destruct (Nat.le_gt_cases j0 j) as [H|H]; [assumption|].
    exfalso. apply (Hbefore j); [lia | assumption]. }
  destruct (extract_shape bd s Hs) as [f [e [Hx [He [_ [Hlen [Hcase _]]]]]]].
  rewrite Hfe in He. inversion He; subst e.
  destruct Hcase as [[Hdeg _] | [_ [Hd Hc]]]; [lia|].
  replace (j0 + 1 - 1) with j0 in Hd, Hc by lia.
  exists j0, f. unfold consumed.
  repeat (split; [first [assumption | lia]|]). lia.
Qed.

Lemma timing_gap_first_wins_witness :
  exists j0 f,
    0 + 2 <= j0 <= 2 /\
    gap_after gap_in_body j0 /\
    (forall k, 0 + 2 <= k < j0 -> ~ gap_after gap_in_body k) /\
    frame_end gap_in_body 0 = Val (j0 + 1) /\ j0 + 1 < 5 /\
    _extract_frame gap_in_body 0 = Val (Some f) /\
    data f = values gap_in_body (0 + 2) j0 /\
    value_at gap_in_body j0 = Some (checksum f) /\
    0 + consumed f = j0 + 1.
Proof.
  apply (timing_gap_first_wins gap_in_body 0 5 2).
  - simpl. lia.
  - reflexivity.
  - lia.
  - lia.
  - unfold gap_after. simpl. lia.
Defined.

(** C1, counterexample. In the stated fixture the 1900 microsecond gap is
    between the PID (index 1) and the byte at index 2; the scan starts at
    the pair (2, 3), so the frame runs to the sync-implied boundary 5 with
    two data bytes and checksum 0x03. *)
Lemma gap_after_pid_not_scanned :
  gap_after gap_after_pid 1 /\
  tentative_end gap_after_pid 0 = Val 5 /\
  frame_end gap_after_pid 0 = Val 5 /\
  _extract_frame gap_after_pid 0 =
    Val (Some {| timestamp := 0; break_byte := ""; sync := "0x55";
                 pid := "0x12"; data := ["0x01"; "0x02"];
                 checksum := "0x03" |}) /\
  ~ (exists f, _extract_frame gap_after_pid 0 = Val (Some f) /\
               data f = [] /\ checksum f = "0x12").
Proof.
  split; [unfold gap_after; simpl; lia|].
  split; [reflexivity|]. split; [reflexivity|]. split; [reflexivity|].
  intros [f [Hx [Hd _]]].
  vm_compute in Hx. inversion Hx; subst f. discriminate Hd.
Qed.

(** C10. When the timing scan fires at a pair [(j, j+1)], then
    [s + 2 <= j], the resolved end is [j + 1 >= s + 3], and the checksum is
    the stream byte at [j].  A resolved end [<= s + 2] comes with no timing
    gap found and from the look-ahead alone: the next sync byte sits at
    [s + 2], or at [s + 3] behind a zero byte at [s + 2]. *)
Theorem timing_override_leaves_checksum (bd : capture) (s : nat) :
  s + 2 < length bd ->
  exists t g e,
    tentative_end bd s = Val t /\
    timing_gap bd (s + 2) t = Val g /\
    frame_end bd s = Val e /\
    (forall j, g = Some j ->
       s + 2 <= j /\ e = j + 1 /\ s + 3 <= e /\
       exists f, _extract_frame bd s = Val (Some f) /\
                 value_at bd j = Some (checksum f)) /\
    (e <= s + 2 ->
       g = None /\ e = t /\
       exists n, find_next_sync bd (s + 2) = Val (Some n) /\
         (n = s + 2 \/
          (n = s + 3 /\ exists v, value_at bd (s + 2) = Some v /\
                                  is_break v = true))).
Proof.
  intro Hs.
  destruct (frame_end_spec bd s) as [ns [b [t [g [Hf [Hok [Ht [Hte [Hg [Hscan Hfe]]]]]]]]]];
    [lia|].
  exists t, g, (match g with Some j => j + 1 | None => t end).
  split; [assumption|]. split; [assumption|]. split; [assumption|]. split.
  - intros j ->. simpl in Hscan. destruct Hscan as [Hlo [Hhi _]].
    split; [assumption|]. split; [reflexivity|]. split; [lia|].
    destruct (extract_shape bd s Hs) as [f [e [Hx [He [_ [_ [Hcase _]]]]]]].
    rewrite Hfe in He. inversion He; subst e.
    destruct Hcase as [[Hdeg _] | [_ [_ Hc]]]; [lia|].
    replace (j + 1 - 1) with j in Hc by lia.
    exists f. split; assumption.
  - intro Hdeg. destruct g as [j|]; simpl in Hscan; [lia|].
    split; [reflexivity|]. split; [reflexivity|].
    destruct ns as [n|]; simpl in Hok.
    + destruct Hok as [Hn [_ [_ Hb]]]. exists n. split; [assumption|].
      destruct Hb as [[-> _] | [-> Hv]].
      * left. lia.
      * assert (n = s + 2 \/ n = s + 3) as [-> | ->] by lia; [left; reflexivity|].
        right. split; [reflexivity|].
        replace (s + 3 - 1) with (s + 2) in Hv by lia. assumption.
    + destruct Hok as [-> _]. lia.
Qed.

Lemma timing_override_leaves_checksum_witness :
  exists t g e,
    tentative_end gap_in_body 0 = Val t /\
    timing_gap gap_in_body (0 + 2) t = Val g /\
    frame_end gap_in_body 0 = Val e /\
    (forall j, g = Some j ->
       0 + 2 <= j /\ e = j + 1 /\ 0 + 3 <= e /\
       exists f, _extract_frame gap_in_body 0 = Val (Some f) /\
                 value_at gap_in_body j = Some (checksum f)) /\
    (e <= 0 + 2 ->
       g = None /\ e = t /\
       exists n, find_next_sync gap_in_body (0 + 2) = Val (Some n) /\
         (n = 0 + 2 \/
          (n = 0 + 3 /\ exists v, value_at gap_in_body (0 + 2) = Some v /\
                                  is_break v = true))).
Proof.
  apply (timing_override_leaves_checksum gap_in_body 0).
  simpl. lia.
Defined.

(** ** The degenerate frame *)

(** C7. With at least two bytes after the sync byte at [s], a resolved
    frame end [<= s + 2] still yields a frame: no exception, no failure,
    empty data and the fixed checksum ["0x00"]. *)
Theorem degenerate_frame_sentinel (bd : capture) (s e : nat) :
  s + 2 < length bd ->
  frame_end bd s = Val e ->
  e <= s + 2 ->
  exists f, _extract_frame bd s = Val (Some f) /\
            data f = [] /\ checksum f = "0x00".
Proof.
  intros Hs He Hdeg.
  destruct (extract_shape bd s Hs) as [f [e' [Hx [He' [_ [_ [Hcase _]]]]]]].
  rewrite He in He'. inversion He'; subst e'.
  destruct Hcase as [[_ [Hd Hc]] | [Hbig _]]; [|lia].
  exists f. auto.
Qed.

Lemma degenerate_frame_sentinel_witness :
  exists f, _extract_frame sync_after_pid 0 = Val (Some f) /\
            data f = [] /\ checksum f = "0x00".
Proof.
  apply (degenerate_frame_sentinel sync_after_pid 0 2).
  - simpl. lia.
  - reflexivity.
  - lia.
Defined.

(** C9. When the scan emits at [s] a frame whose resolved end is
    [<= s + 2], the frame is made of the sync byte at [s] and the PID at
    [s + 1], with no data and the fixed checksum, and the cursor still
    moves to [s + 3].  The byte at [s + 2] is passed over: the cursor never
    stands on it, so it is never tested as a sync byte, and it lies in the
    counted range of no other emitted frame. *)
Theorem degenerate_frame_skips_a_byte (bd : capture) (s e : nat) (f : LINFrame) :
  In (s, Some f) (run bd) ->
  frame_end bd s = Val e ->
  e <= s + 2 ->
  value_at bd s = Some (sync f) /\ value_at bd (s + 1) = Some (pid f) /\
  data f = [] /\ checksum f = "0x00" /\
  parse_step bd s = Val (Some f, s + 3) /\
  s + 2 < length bd /\
  ~ In (s + 2) (map fst (run bd)) /\
  (forall s' f', In (s', f') (emitted (run bd)) -> s' <> s ->
                 ~ (s' <= s + 2 < s' + consumed f')).
Proof.
  intros Hin He Hdeg. unfold run in *.
  destruct (trace_step _ _ _ _ _ Hin) as [k' Hp].
  destruct (parse_step_some _ _ _ _ Hp) as [Hx Hk'].
  pose proof (extract_some_long _ _ _ Hx) as Hlong.
  destruct (extract_shape bd s Hlong)
    as [g [e' [Hx' [He' [_ [_ [Hcase [Hsy [Hpid _]]]]]]]]].
  rewrite Hx in Hx'. inversion Hx'; subst g.
  rewrite He in He'. inversion He'; subst e'.
  destruct Hcase as [[_ [Hd Hc]] | [Hbig _]]; [|lia].
  assert (Hk3 : k' = s + 3) by (subst k'; unfold consumed; rewrite Hd; simpl; lia).
  subst k'. rewrite Hk3 in Hp.
  split; [assumption|]. split; [assumption|].
  split; [assumption|]. split; [assumption|]. split; [assumption|].
  split; [assumption|]. split.
  - intro Hcur. apply in_map_iff in Hcur. destruct Hcur as [[k o'] [Hk Hcur]].
    simpl in Hk. subst k.
    destruct (trace_skips _ _ _ _ _ _ _ _ Hin Hp Hcur); lia.
  - intros s' f' Hin' Hne Hrange. apply emitted_In in Hin'.
    destruct (trace_step _ _ _ _ _ Hin') as [k'' Hp'].
    destruct (parse_step_some _ _ _ _ Hp') as [_ Hk'']. subst k''.
    destruct (trace_skips _ _ _ _ _ _ _ _ Hin Hp Hin');
      destruct (trace_skips _ _ _ _ _ _ _ _ Hin' Hp' Hin); lia.
Qed.

Lemma degenerate_frame_skips_a_byte_witness :
  value_at sync_after_pid 2 = Some "0x55" /\
  value_at sync_after_pid 0 = Some (sync frame_sentinel) /\
  value_at sync_after_pid (0 + 1) = Some (pid frame_sentinel) /\
  data frame_sentinel = [] /\ checksum frame_sentinel = "0x00" /\
  parse_step sync_after_pid 0 = Val (Some frame_sentinel, 0 + 3) /\
  0 + 2 < length sync_after_pid /\
  ~ In (0 + 2) (map fst (run sync_after_pid)) /\
  (forall s' f', In (s', f') (emitted (run sync_after_pid)) -> s' <> 0 ->
                 ~ (s' <= 0 + 2 < s' + consumed f')).
Proof.
  split; [reflexivity|].
  apply (degenerate_frame_skips_a_byte sync_after_pid 0 2 frame_sentinel).
  - simpl. left. reflexivity.
  - reflexivity.
  - lia.
Defined.

(** ** Cursor advance *)

(** C5, as the code has it. After a successful extraction at [s] the
    cursor moves by exactly [2 + len(data) + 1]; when the resolved end is
    at least [s + 3], so that the checksum was read from the stream, the
    new cursor is that end and the byte just before it is the checksum; and
    of two frames emitted one after the other, the second starts at or
    after the position where the first stopped counting. *)
Theorem cursor_advance_no_overlap (bd : capture) :
  parse_frames bd = Some (Val (map snd (emitted (run bd)))) /\
  (forall s f i',
     parse_step bd s = Val (Some f, i') ->
     i' = s + (2 + length (data f) + 1)) /\
  (forall s f i' e,
     parse_step bd s = Val (Some f, i') ->
     frame_end bd s = Val e -> s + 3 <= e ->
     i' = e /\ value_at bd (i' - 1) = Some (checksum f)) /\
  (forall l1 s1 f1 s2 f2 l2,
     emitted (run bd) = l1 ++ (s1, f1) :: (s2, f2) :: l2 ->
     s1 + (2 + length (data f1) + 1) <= s2).
Proof.
  split; [apply parse_frames_run|]. split; [|split].
  - intros s f i' Hp. apply parse_step_some in Hp. tauto.
  - intros s f i' e Hp He Hbig.
    destruct (parse_step_some _ _ _ _ Hp) as [Hx ->].
    pose proof (extract_some_long _ _ _ Hx) as Hlong.
    destruct (extract_shape bd s Hlong) as [g [e' [Hx' [He' [_ [Hlen [Hcase _]]]]]]].
    rewrite Hx in Hx'. inversion Hx'; subst g.
    rewrite He in He'. inversion He'; subst e'.
    destruct Hcase as [[Hdeg _] | [_ [_ Hc]]]; [lia|].
    assert (Hcur : s + consumed f = e) by (unfold consumed; lia).
    rewrite Hcur. split; [reflexivity | assumption].
  - intros l1 s1 f1 s2 f2 l2 Heq.
    pose proof (trace_chained bd (length bd) 0) as Hch.
    fold (run bd) in Hch. rewrite Heq in Hch.
    apply chained_consecutive in Hch. exact Hch.
Qed.

Lemma cursor_advance_no_overlap_witness :
  3 = 0 + (2 + length (data frame_sentinel) + 1) /\
  0 + (2 + length (data frame_sentinel) + 1) <= 3.
Proof.
  split.
  - apply (proj1 (proj2 (cursor_advance_no_overlap break_after_pid))
             0 frame_sentinel 3).
    reflexivity.
  - apply (proj2 (proj2 (proj2 (cursor_advance_no_overlap break_after_pid)))
             [] 0 frame_sentinel 3 frame_after_break []).
    reflexivity.
Defined.

(** C5, counterexample. On [sync_after_pid] the extraction at index 0
    succeeds with the fixed checksum ["0x00"], which is no byte of the
    stream; the scan resumes at index 3, right after the sync byte at
    index 2, which is not the checksum. *)
Lemma resume_not_after_checksum :
  parse_step sync_after_pid 0 = Val (Some frame_sentinel, 3) /\
  frame_end sync_after_pid 0 = Val 2 /\
  value_at sync_after_pid (3 - 1) = Some "0x55" /\
  value_at sync_after_pid (3 - 1) <> Some (checksum frame_sentinel) /\
  (forall k, value_at sync_after_pid k <> Some (checksum frame_sentinel)).
Proof.
  split; [reflexivity|]. split; [reflexivity|]. split; [reflexivity|].
  split; [discriminate|].
  intros k. do 5 (destruct k as [|k]; [discriminate|]).
  unfold value_at. simpl. destruct k; discriminate.
Qed.

(** ** Termination *)

(** C6. The scan of any capture returns a list of frames: [length bd]
    iterations are enough, more fuel changes nothing, and no exception
    escapes.  Every iteration at a cursor inside the capture moves the
    cursor strictly forward, by [2 + len(data) + 1] when a frame is
    appended and by 1 otherwise. *)
Theorem scan_terminates (bd : capture) :
  (exists frames, parse_frames bd = Some (Val frames)) /\
  (forall fuel, length bd <= fuel ->
                parse_loop fuel bd 0 [] = parse_frames bd) /\
  (forall i, i < length bd ->
     exists o i', parse_step bd i = Val (o, i') /\ i < i' /\
       i' = match o with
            | Some f => i + (2 + length (data f) + 1)
            | None => i + 1
            end).
Proof.
  split; [|split].
  - eexists. apply parse_frames_run.
  - intros fuel Hfuel. rewrite parse_frames_run.
    replace fuel with (length bd + (fuel - length bd)) by lia.
    apply parse_loop_fuel_mono. apply parse_frames_run.
  - intros i Hi. apply parse_step_progress. assumption.
Qed.

Lemma scan_terminates_witness :
  exists o i', parse_step sync_after_pid 0 = Val (o, i') /\ 0 < i' /\
    i' = match o with
         | Some f => 0 + (2 + length (data f) + 1)
         | None => 0 + 1
         end.
Proof.
  apply (proj2 (proj2 (scan_terminates sync_after_pid)) 0).
  simpl. lia.
Defined.

(** ** Break bytes *)

(** Outside the degenerate case the zero byte before a sync is counted by
    neither neighbour: when the earlier of two frames emitted one after the
    other read its checksum from the stream, its counted range stops at or
    before the zero byte in front of the later frame's sync, and the later
    frame reports that byte as its break marker. *)
Lemma break_excluded_when_checksum_read (bd : capture)
    (l1 l2 : list (nat * LINFrame)) (s1 s2 e : nat) (f1 f2 : LINFrame)
    (v : string) :
  emitted (run bd) = l1 ++ (s1, f1) :: (s2, f2) :: l2 ->
  value_at bd (s2 - 1) = Some v -> is_break v = true ->
  frame_end bd s1 = Val e -> s1 + 3 <= e ->
  break_byte f2 = v /\ s1 + consumed f1 = e /\ e <= s2 - 1.
Proof.
  intros Heq Hv Hbrk He Hbig.
  pose proof (trace_chained bd (length bd) 0) as Hch.
  fold (run bd) in Hch. rewrite Heq in Hch.
  apply chained_consecutive in Hch.
  assert (Hin1 : In (s1, Some f1) (run bd)).
  { apply emitted_In. rewrite Heq. apply in_or_app. right. left. reflexivity. }
  assert (Hin2 : In (s2, Some f2) (run bd)).
  { apply emitted_In. rewrite Heq. apply in_or_app. right. right. left.
    reflexivity. }
  unfold run in Hin1, Hin2.
  destruct (trace_step _ _ _ _ _ Hin1) as [k1 Hp1].
  destruct (trace_step _ _ _ _ _ Hin2) as [k2 Hp2].
  destruct (parse_step_some _ _ _ _ Hp1) as [Hx1 _].
  destruct (parse_step_some _ _ _ _ Hp2) as [Hx2 _].
  pose proof (extract_some_long _ _ _ Hx1) as Hlong1.
  pose proof (extract_some_long _ _ _ Hx2) as Hlong2.
  (* the later frame *)
  destruct (extract_shape bd s2 Hlong2)
    as [g2 [e2 [Hx2' [_ [_ [_ [_ [_ [_ [brk [Hbok Hbb]]]]]]]]]]].
  rewrite Hx2 in Hx2'. inversion Hx2'; subst g2.
  assert (Hsync2 : exists w, value_at bd s2 = Some w /\ is_sync w = true).
  { destruct (parse_step_spec bd s2) as [[g [_ [_ [_ Hw]]]] | [Hnone _]];
      [lia | assumption | rewrite Hp2 in Hnone; discriminate]. }
  (* the earlier frame *)
  destruct (extract_shape bd s1 Hlong1) as [g1 [e1 [Hx1' [He1 [_ [Hlen _]]]]]].
  rewrite Hx1 in Hx1'. inversion Hx1'; subst g1.
  rewrite He in He1. inversion He1; subst e1.
  assert (Hcnt : s1 + consumed f1 = e) by (unfold consumed; lia).
  split; [|split; [assumption|]].
  - rewrite Hbb. destruct brk as [b|]; simpl in Hbok.
    + destruct Hbok as [_ [Hb _]]. congruence.
    + destruct Hbok as [H0 | [w [Hw Hnb]]]; [unfold consumed in Hch; lia|].
      rewrite Hv in Hw. inversion Hw; subst w. congruence.
  - destruct (frame_end_spec bd s1)
      as [ns [b [t [g [_ [Hok [Ht [_ [_ [Hscan Hfe]]]]]]]]]]; [lia|].
    rewrite He in Hfe. inversion Hfe as [Hefe].
    assert (Het : e <= b) by (destruct g; simpl in Hscan; lia).
    destruct Hsync2 as [w [Hw Hsw]].
    destruct ns as [n|]; simpl in Hok.
    + destruct Hok as [Hn [_ [Hbefore Hb]]].
      assert (Hns : n <= s2).
      { destruct (Nat.le_gt_cases n s2) as [H|H]; [assumption|].
        rewrite (Hbefore s2 w) in Hsw; [discriminate | lia | assumption]. }
      destruct Hb as [[-> [u [Hu Hnb]]] | [-> _]]; [|lia].
      destruct (Nat.eq_dec n s2) as [-> | Hne]; [|lia].
      rewrite Hv in Hu. inversion Hu; subst u. congruence.
    + destruct Hok as [_ Hnone].
      rewrite (Hnone s2 w) in Hsw; [discriminate | lia | assumption].
Qed.

(** C3, evaluated on [break_after_pid].  The zero byte at index 2 stands
    right before the sync byte at index 3: the frame at 3 reports it as its
    break marker and counts from its own sync byte, and the resolved end of
    the frame at 0 is 2, excluding it.  But that frame is degenerate and the
    cursor advance counts three bytes for it, indices 0 to 2, the zero byte
    among them. *)
Theorem break_byte_counted_by_degenerate_frame :
  parse_frames break_after_pid = Some (Val [frame_sentinel; frame_after_break]) /\
  emitted (run break_after_pid) = [(0, frame_sentinel); (3, frame_after_break)] /\
  value_at break_after_pid 2 = Some "0x00" /\
  is_sync "0x55" = true /\ value_at break_after_pid 3 = Some "0x55" /\
  break_byte frame_after_break = "0x00" /\
  frame_end break_after_pid 0 = Val 2 /\
  parse_step break_after_pid 0 = Val (Some frame_sentinel, 3) /\
  consumed frame_sentinel = 3 /\
  0 <= 2 < 0 + consumed frame_sentinel.
Proof.
  repeat (split; [reflexivity|]). unfold consumed. simpl. lia.
Qed.

(** * Further properties of the segmenter *)

(** ** Emitted frames and the stream *)

Lemma emitted_extract (bd : capture) (s : nat) (f : LINFrame) :
  In (s, f) (emitted (run bd)) ->
  _extract_frame bd s = Val (Some f) /\ s + 2 < length bd /\
  exists v, value_at bd s = Some v /\ is_sync v = true.
Proof.
  intro Hin. apply emitted_In in Hin. unfold run in Hin.
  pose proof (trace_cursor_ge _ _ _ _ _ Hin) as Hs.
  destruct (trace_step _ _ _ _ _ Hin) as [k Hp].
  destruct (parse_step_some _ _ _ _ Hp) as [Hx _].
  split; [assumption|]. split; [eapply extract_some_long; eassumption|].
  destruct (parse_step_spec bd s) as [[g [_ [_ [_ Hw]]]] | [Hnone _]];
    [lia | assumption | rewrite Hp in Hnone; discriminate].
Qed.

Lemma is_break_nonempty (v : string) : is_break v = true -> v <> "".
Proof. intros H ->. discriminate H. Qed.

(** X1. Every emitted frame starts at a byte equal to 0x55 up to case: its
    [sync] field is that byte, its [pid] the byte right after it, and its
    timestamp the timestamp of the sync byte. *)
Theorem emitted_header_fields (bd : capture) (s : nat) (f : LINFrame) :
  In (s, f) (emitted (run bd)) ->
  s + 2 < length bd /\
  value_at bd s = Some (sync f) /\ is_sync (sync f) = true /\
  value_at bd (s + 1) = Some (pid f) /\
  timestamp f = time_at bd s.
Proof.
  intro Hin. destruct (emitted_extract _ _ _ Hin) as [Hx [Hlong [v [Hv Hsv]]]].
  destruct (extract_spec bd s Hlong) as [ts [sy [t1 [p [brk [e [d [c H]]]]]]]].
  destruct H as [Hn [Hn1 [_ [_ [_ Hx']]]]].
  rewrite Hx in Hx'. inversion Hx'; subst f. simpl.
  rewrite (value_at_nth _ _ _ _ Hn) in Hv. inversion Hv; subst v.
  split; [assumption|]. split; [eapply value_at_nth; eassumption|].
  split; [assumption|]. split; [eapply value_at_nth; eassumption|].
  symmetry. eapply time_at_nth; eassumption.
Qed.

Lemma emitted_header_fields_witness :
  1 + 2 < length scenario_A /\
  value_at scenario_A 1 = Some (sync frame_A) /\ is_sync (sync frame_A) = true /\
  value_at scenario_A (1 + 1) = Some (pid frame_A) /\
  timestamp frame_A = time_at scenario_A 1.
Proof.
  apply (emitted_header_fields scenario_A 1 frame_A).
  simpl. left. reflexivity.
Defined.

(** X2. A frame carries a break marker exactly when its sync byte is not the
    first byte of the capture and the byte before it is a zero byte; the
    marker is then that byte as captured. *)
Theorem break_marker_iff (bd : capture) (s : nat) (f : LINFrame) :
  In (s, f) (emitted (run bd)) ->
  (break_byte f <> "" <->
   0 < s /\ exists v, value_at bd (s - 1) = Some v /\ is_break v = true) /\
  (break_byte f <> "" -> value_at bd (s - 1) = Some (break_byte f)).
Proof.
  intro Hin. destruct (emitted_extract _ _ _ Hin) as [Hx [Hlong _]].
  destruct (extract_shape bd s Hlong)
    as [g [e [Hx' [_ [_ [_ [_ [_ [_ [brk [Hbok Hbb]]]]]]]]]]].
  rewrite Hx in Hx'. inversion Hx'; subst g. rewrite Hbb.
  destruct brk as [b|]; simpl in Hbok.
  - destruct Hbok as [Hpos [Hb Hbrk]]. split.
    + split.
      * intros _. split; [assumption|]. exists b. auto.
      * intros _. apply is_break_nonempty. assumption.
    + intros _. assumption.
  - split.
    + split; [intro H; contradiction H; reflexivity|].
      intros [Hpos [v [Hv Hbrk]]].
      destruct Hbok as [H0 | [w [Hw Hnb]]]; [lia|].
      rewrite Hv in Hw. inversion Hw; subst w. congruence.
    + intro H. contradiction H. reflexivity.
Qed.

Lemma break_marker_iff_witness :
  (break_byte frame_A <> "" <->
   0 < 1 /\ exists v, value_at scenario_A (1 - 1) = Some v /\ is_break v = true) /\
  (break_byte frame_A <> "" -> value_at scenario_A (1 - 1) = Some (break_byte frame_A)).
Proof.
  apply (break_marker_iff scenario_A 1 frame_A).
  simpl. left. reflexivity.
Defined.

(** ** Slices of the stream *)

Lemma values_nil (bd : capture) (a b : nat) : b <= a -> values bd a b = [].
Proof. intro H. unfold values. replace (b - a) with 0 by lia. reflexivity. Qed.

Lemma values_cons (bd : capture) (a b : nat) (v : string) :
  value_at bd a = Some v -> a < b ->
  values bd a b = v :: values bd (S a) b.
Proof.
  intros Hv Hab. unfold value_at in Hv.
  destruct (nth_error bd a) as [[t w]|] eqn:Hn; [|discriminate].
  simpl in Hv. inversion Hv; subst w. unfold values.
  rewrite (skipn_cons_nth _ _ _ Hn).
  replace (b - a) with (S (b - S a)) by lia. reflexivity.
Qed.

Lemma values_In (bd : capture) (a b : nat) (v : string) :
  In v (values bd a b) -> exists k, a <= k < b /\ value_at bd k = Some v.
Proof.
  remember (b - a) as n eqn:Hn. revert a Hn.
  induction n as [|n IH]; intros a Hn Hin.
  - rewrite values_nil in Hin by lia. contradiction.
  - destruct (value_at bd a) as [w|] eqn:Hw.
    + rewrite (values_cons bd a b w Hw) in Hin by lia.
      destruct Hin as [-> | Hin].
      * exists a. split; [lia | assumption].
      * destruct (IH (S a)) as [k [Hk Hv]]; [lia | assumption|].
        exists k. split; [lia | assumption].
    + unfold value_at in Hw. destruct (nth_error bd a) eqn:Hnth; [discriminate|].
      apply nth_error_None in Hnth. unfold values in Hin.
      rewrite skipn_all2 in Hin by assumption.
      rewrite firstn_nil in Hin. contradiction.
Qed.

Lemma values_snoc (bd : capture) (a b : nat) (v : string) :
  a <= b -> b < length bd -> value_at bd b = Some v ->
  values bd a (S b) = values bd a b ++ [v].
Proof.
  intros Hab Hlen Hv. remember (b - a) as n eqn:Hn. revert a Hab Hn.
  induction n as [|n IH]; intros a Hab Hn.
  - assert (a = b) by lia. subst a.
    rewrite (values_cons bd b (S b) v Hv) by lia.
    rewrite !values_nil by lia. reflexivity.
  - destruct (getitem_in_range bd a) as [[t w] [_ Hnth]]; [lia|].
    apply value_at_nth in Hnth.
    rewrite (values_cons bd a (S b) w Hnth) by lia.
    rewrite (values_cons bd a b w Hnth) by lia.
    rewrite IH by lia. reflexivity.
Qed.

(** X3. A frame whose checksum was read from the stream is the stream slice
    from its sync byte to its resolved end, field by field and in wire
    order. *)
Theorem frame_reassembles_stream (bd : capture) (s e : nat) (f : LINFrame) :
  In (s, f) (emitted (run bd)) ->
  frame_end bd s = Val e ->
  s + 3 <= e ->
  s + consumed f = e /\
  values bd s e = sync f :: pid f :: data f ++ [checksum f].
Proof.
  intros Hin He Hbig. destruct (emitted_extract _ _ _ Hin) as [Hx [Hlong _]].
  destruct (extract_shape bd s Hlong)
    as [g [e' [Hx' [He' [Hcap [Hlen [Hcase [Hsy [Hpid _]]]]]]]]].
  rewrite Hx in Hx'. inversion Hx'; subst g.
  rewrite He in He'. inversion He'; subst e'.
  destruct Hcase as [[Hdeg _] | [_ [Hd Hc]]]; [lia|].
  split; [unfold consumed; lia|].
  rewrite (values_cons bd s e _ Hsy) by lia.
  replace (S s) with (s + 1) by lia.
  rewrite (values_cons bd (s + 1) e _ Hpid) by lia.
  replace (S (s + 1)) with (s + 2) by lia.
  replace e with (S (e - 1)) at 1 by lia.
  assert (Hin_range : e - 1 < length bd) by lia.
  rewrite (values_snoc bd (s + 2) (e - 1) (checksum f)) by (assumption || lia).
  rewrite <- Hd. reflexivity.
Qed.

Lemma frame_reassembles_stream_witness :
  1 + consumed frame_A = 4 /\
  values scenario_A 1 4 = sync frame_A :: pid frame_A :: data frame_A ++ [checksum frame_A].
Proof.
  apply (frame_reassembles_stream scenario_A 1 4 frame_A).
  - simpl. left. reflexivity.
  - reflexivity.
  - lia.
Defined.

(** X4. No data byte and no checksum of an emitted frame is a sync byte: the
    look-ahead ends the frame before the first 0x55 that follows the PID. *)
Theorem frame_body_has_no_sync (bd : capture) (s : nat) (f : LINFrame) :
  In (s, f) (emitted (run bd)) ->
  Forall (fun v => is_sync v = false) (data f) /\ is_sync (checksum f) = false.
Proof.
  intro Hin. destruct (emitted_extract _ _ _ Hin) as [Hx [Hlong _]].
  destruct (extract_shape bd s Hlong) as [g [e [Hx' [He [_ [_ [Hcase _]]]]]]].
  rewrite Hx in Hx'. inversion Hx'; subst g.
  destruct Hcase as [[_ [-> ->]] | [Hbig [Hd Hc]]]; [split; [constructor | reflexivity]|].
  destruct (frame_end_spec bd s)
    as [ns [b [t [g [_ [Hok [Ht [_ [_ [Hscan Hfe]]]]]]]]]]; [lia|].
  rewrite He in Hfe. inversion Hfe as [Hefe].
  assert (Het : e <= b /\ e <= length bd) by (destruct g; simpl in Hscan; lia).
  assert (Hbody : forall k v, s + 2 <= k < e -> value_at bd k = Some v ->
                              is_sync v = false).
  { intros k v Hk Hv. destruct ns as [n|]; simpl in Hok.
    - destruct Hok as [_ [_ [Hbefore Hb]]]. apply (Hbefore k v); [|assumption].
      destruct Hb as [[-> _] | [-> _]]; lia.
    - destruct Hok as [_ Hnone]. apply (Hnone k v); [lia | assumption]. }
  split.
  - apply Forall_forall. intros v Hv. rewrite Hd in Hv.
    apply values_In in Hv. destruct Hv as [k [Hk Hv]].
    apply (Hbody k v); [lia | assumption].
  - apply (Hbody (e - 1)); [lia | assumption].
Qed.

Lemma frame_body_has_no_sync_witness :
  Forall (fun v => is_sync v = false) (data frame_A) /\
  is_sync (checksum frame_A) = false.
Proof.
  apply (frame_body_has_no_sync scenario_A 1 frame_A).
  simpl. left. reflexivity.
Defined.

(** X5. Inside the body of an emitted frame, from the first byte after the PID
    to the resolved end, no two neighbouring bytes are more than 1000
    microseconds apart. *)
Theorem frame_body_has_no_gap (bd : capture) (s e k : nat) (f : LINFrame) :
  In (s, f) (emitted (run bd)) ->
  frame_end bd s = Val e ->
  s + 2 <= k -> k + 1 < e ->
  (time_at bd (k + 1) - time_at bd k <= 1000)%Z.
Proof.
  intros Hin He Hlo Hhi. destruct (emitted_extract _ _ _ Hin) as [_ [Hlong _]].
  destruct (frame_end_spec bd s)
    as [ns [b [t [g [_ [_ [_ [_ [_ [Hscan Hfe]]]]]]]]]]; [lia|].
  rewrite He in Hfe. inversion Hfe as [Hefe].
  assert (Hno : ~ gap_after bd k).
  { destruct g as [j|]; simpl in Hscan.
    - destruct Hscan as [_ [_ [_ Hbefore]]]. apply Hbefore. lia.
    - apply Hscan; lia. }
  unfold gap_after in Hno. lia.
Qed.

Lemma frame_body_has_no_gap_witness :
  (time_at gap_after_pid (2 + 1) - time_at gap_after_pid 2 <= 1000)%Z.
Proof.
  apply (frame_body_has_no_gap gap_after_pid 0 5 2
           {| timestamp := 0; break_byte := ""; sync := "0x55"; pid := "0x12";
              data := ["0x01"; "0x02"]; checksum := "0x03" |}).
  - simpl. left. reflexivity.
  - reflexivity.
  - lia.
  - lia.
Defined.

(** ** When the scan yields nothing, and how much it can yield *)

Lemma first_sync_emits (bd : capture) (fuel i s : nat) (v : string) :
  i <= s -> s + 2 < length bd ->
  value_at bd s = Some v -> is_sync v = true ->
  length bd - i <= fuel ->
  emitted (trace fuel bd i) <> [].
Proof.
  intros His Hlong Hv Hsync. revert i His.
  induction fuel as [|fuel IH]; intros i His Hfuel; [lia|].
  simpl. assert (Hi : i < length bd) by lia.
  apply Nat.ltb_lt in Hi. rewrite Hi. apply Nat.ltb_lt in Hi.
  destruct (parse_step_spec bd i Hi) as [[f [Hp _]] | [Hp Hwhy]]; rewrite Hp.
  - simpl. discriminate.
  - simpl. apply IH; [|lia].
    destruct (Nat.eq_dec i s) as [-> | Hne]; [|lia].
    destruct Hwhy as [Hshort | [w [Hw Hns]]]; [lia|].
    rewrite Hv in Hw. inversion Hw; subst w. congruence.
Qed.

(** X6. The scan returns no frame exactly when no sync byte of the capture
    has two bytes after it; in particular for an empty capture, a capture
    without 0x55, and a capture of fewer than three bytes. *)
Theorem no_frames_iff_no_usable_sync (bd : capture) :
  parse_frames bd = Some (Val []) <->
  (forall s v, s + 2 < length bd -> value_at bd s = Some v -> is_sync v = false).
Proof.
  rewrite parse_frames_run. split.
  - intros Hnil s v Hlong Hv.
    destruct (is_sync v) eqn:Hsync; [|reflexivity].
    exfalso. apply (first_sync_emits bd (length bd) 0 s v); try assumption; try lia.
    inversion Hnil as [Hmap]. fold (run bd).
    destruct (emitted (run bd)); [reflexivity | discriminate].
  - intro Hnone. destruct (emitted (run bd)) as [|[s f] l] eqn:Hem; [reflexivity|].
    assert (Hin : In (s, f) (emitted (run bd))) by (rewrite Hem; left; reflexivity).
    destruct (emitted_extract _ _ _ Hin) as [_ [Hlong [v [Hv Hsync]]]].
    rewrite (Hnone s v Hlong Hv) in Hsync. discriminate.
Qed.

Lemma no_frames_iff_no_usable_sync_witness :
  parse_frames scenario_D = Some (Val []).
Proof.
  apply (proj2 (no_frames_iff_no_usable_sync scenario_D)).
  intros s v Hlong. simpl in Hlong. lia.
Defined.

Lemma emitted_within (bd : capture) (s : nat) (f : LINFrame) :
  In (s, f) (emitted (run bd)) -> s + consumed f <= length bd.
Proof.
  intro Hin. destruct (emitted_extract _ _ _ Hin) as [Hx [Hlong _]].
  destruct (extract_shape bd s Hlong) as [g [e [Hx' [_ [Hcap [Hlen _]]]]]].
  rewrite Hx in Hx'. inversion Hx'; subst g. unfold consumed. lia.
Qed.

Lemma chained_sum (N lo : nat) (l : list (nat * LINFrame)) :
  chained lo l -> lo <= N ->
  (forall s f, In (s, f) l -> s + consumed f <= N) ->
  lo + list_sum (map consumed (map snd l)) <= N.
Proof.
  revert lo. induction l as [|[s f] l IH]; intros lo Hch Hlo Hall; simpl.
  - lia.
  - destruct Hch as [Hs Hch].
    assert (Hsf : s + consumed f <= N) by (apply Hall; left; reflexivity).
    specialize (IH (s + consumed f) Hch Hsf).
    assert (Hrest : forall s' f', In (s', f') l -> s' + consumed f' <= N)
      by (intros; apply Hall; right; assumption).
    specialize (IH Hrest). unfold consumed in *. simpl in *. lia.
Qed.

Lemma sum_consumed_ge (frames : list LINFrame) :
  3 * length frames <= list_sum (map consumed frames).
Proof.
  induction frames as [|f l IH]; [simpl; lia|].
  cbn [length map list_sum fold_right]. unfold list_sum in IH.
  unfold consumed at 1. lia.
Qed.

(** X7. The bytes counted for all emitted frames together never exceed the
    capture: a capture of [n] bytes yields at most [n / 3] frames. *)
Theorem counted_bytes_fit_capture (bd : capture) (frames : list LINFrame) :
  parse_frames bd = Some (Val frames) ->
  list_sum (map consumed frames) <= length bd /\
  3 * length frames <= length bd.
Proof.
  intro Hrun. rewrite parse_frames_run in Hrun. inversion Hrun; subst frames.
  assert (Hsum : 0 + list_sum (map consumed (map snd (emitted (run bd))))
                 <= length bd).
  { apply chained_sum; [apply trace_chained | lia | apply emitted_within]. }
  split; [lia|].
  pose proof (sum_consumed_ge (map snd (emitted (run bd)))). lia.
Qed.

Lemma counted_bytes_fit_capture_witness :
  list_sum (map consumed [frame_sentinel; frame_after_break])
    <= length break_after_pid /\
  3 * length [frame_sentinel; frame_after_break] <= length break_after_pid.
Proof.
  apply (counted_bytes_fit_capture break_after_pid).
  reflexivity.
Defined.

(** ** Order of the output *)

Lemma chained_sorted (bd : capture) (lo : nat) (l : list (nat * LINFrame)) :
  (forall i j, i <= j -> j < length bd -> (time_at bd i <= time_at bd j)%Z) ->
  chained lo l ->
  (forall s f, In (s, f) l -> s < length bd /\ timestamp f = time_at bd s) ->
  StronglySorted Z.le (map timestamp (map snd l)).
Proof.
  intros Hmono. revert lo. induction l as [|[s f] l IH]; intros lo Hch Hall; simpl.
  - constructor.
  - destruct Hch as [_ Hch]. constructor.
    + apply (IH (s + consumed f)); [assumption|].
      intros; apply Hall; right; assumption.
    + apply Forall_forall. intros t Ht.
      apply in_map_iff in Ht. destruct Ht as [f' [<- Hf']].
      apply in_map_iff in Hf'. destruct Hf' as [[s' g] [Hg Hin]].
      simpl in Hg. subst g.
      pose proof (chained_In _ _ _ _ Hch Hin) as Hle.
      destruct (Hall s f) as [_ ->]; [left; reflexivity|].
      destruct (Hall s' f') as [Hs' ->]; [right; assumption|].
      apply Hmono; [unfold consumed in Hle; lia | assumption].
Qed.

(** X8. Frames come out in stream order: when the capture's timestamps never
    decrease, neither do the timestamps of the returned frames. *)
Theorem frame_timestamps_sorted (bd : capture) (frames : list LINFrame) :
  (forall i j, i <= j -> j < length bd -> (time_at bd i <= time_at bd j)%Z) ->
  parse_frames bd = Some (Val frames) ->
  StronglySorted Z.le (map timestamp frames).
Proof.
  intros Hmono Hrun. rewrite parse_frames_run in Hrun. inversion Hrun; subst frames.
  apply (chained_sorted bd 0); [assumption | apply trace_chained|].
  intros s f Hin. destruct (emitted_extract _ _ _ Hin) as [Hx [Hlong _]].
  split; [lia|].
  destruct (extract_spec bd s Hlong) as [ts [sy [t1 [p [brk [e [d [c H]]]]]]]].
  destruct H as [Hn [_ [_ [_ [_ Hx']]]]].
  rewrite Hx in Hx'. inversion Hx'; subst f. simpl.
  symmetry. eapply time_at_nth; eassumption.
Qed.

Lemma frame_timestamps_sorted_witness :
  StronglySorted Z.le (map timestamp [frame_sentinel; frame_after_break]).
Proof.
  apply (frame_timestamps_sorted break_after_pid).
  - intros i j Hij Hj. simpl in Hj.
    do 6 (destruct j as [|j]; [do 6 (destruct i as [|i]; [vm_compute; try discriminate; lia|]); lia|]).
    lia.
  - reflexivity.
Defined.

(** ** The resolved end when no timing gap interferes *)

Lemma first_sync_unique (bd : capture) (a n m : nat) (v w : string) :
  a <= n -> a <= m ->
  value_at bd n = Some v -> is_sync v = true ->
  value_at bd m = Some w -> is_sync w = true ->
  (forall k u, a <= k < n -> value_at bd k = Some u -> is_sync u = false) ->
  (forall k u, a <= k < m -> value_at bd k = Some u -> is_sync u = false) ->
  n = m.
Proof.
  intros Han Ham Hv Hsv Hw Hsw Hn Hm.
  destruct (Nat.lt_trichotomy n m) as [Hlt | [Heq | Hgt]]; [|assumption|].
  - rewrite (Hm n v) in Hsv; [discriminate | lia | assumption].
  - rewrite (Hn m w) in Hsw; [discriminate | lia | assumption].
Qed.

(** X9. With no sync byte after the PID and no timing gap in the body, the
    frame runs to the hard cap [s + 11] or to the end of the capture,
    whichever comes first; its checksum is the last byte before that. *)
Theorem frame_runs_to_cap_without_sync (bd : capture) (s : nat) :
  s + 2 < length bd ->
  (forall k v, s + 2 <= k < length bd -> value_at bd k = Some v ->
               is_sync v = false) ->
  (forall k, s + 2 <= k -> k + 1 < Nat.min (s + 11) (length bd) ->
             (time_at bd (k + 1) - time_at bd k <= 1000)%Z) ->
  exists f,
    _extract_frame bd s = Val (Some f) /\
    frame_end bd s = Val (Nat.min (s + 11) (length bd)) /\
    data f = values bd (s + 2) (Nat.min (s + 11) (length bd) - 1) /\
    value_at bd (Nat.min (s + 11) (length bd) - 1) = Some (checksum f).
Proof.
  intros Hlong Hnosync Hnogap.
  destruct (frame_end_spec bd s)
    as [ns [b [t [g [_ [Hok [Ht [_ [_ [Hscan Hfe]]]]]]]]]]; [lia|].
  assert (Hb : b = Nat.min (s + 11) (length bd)).
  { destruct ns as [n|]; simpl in Hok.
    - destruct Hok as [Hn [[v [Hv Hsv]] _]].
      rewrite (Hnosync n v) in Hsv; [discriminate | lia | assumption].
    - tauto. }
  assert (Hg : g = None).
  { destruct g as [j|]; [|reflexivity]. simpl in Hscan.
    destruct Hscan as [Hlo [Hhi [Hgap _]]]. unfold gap_after in Hgap.
    specialize (Hnogap j Hlo). lia. }
  subst g. assert (Htb : t = Nat.min (s + 11) (length bd)) by lia.
  rewrite Htb in Hfe.
  destruct (extract_shape bd s Hlong) as [f [e [Hx [He [_ [_ [Hcase _]]]]]]].
  rewrite Hfe in He. inversion He; subst e.
  destruct Hcase as [[Hdeg _] | [_ [Hd Hc]]]; [lia|].
  exists f. auto.
Qed.

Lemma frame_runs_to_cap_without_sync_witness :
  exists f,
    _extract_frame scenario_A 1 = Val (Some f) /\
    frame_end scenario_A 1 = Val (Nat.min (1 + 11) (length scenario_A)) /\
    data f = values scenario_A (1 + 2) (Nat.min (1 + 11) (length scenario_A) - 1) /\
    value_at scenario_A (Nat.min (1 + 11) (length scenario_A) - 1) = Some (checksum f).
Proof.
  apply (frame_runs_to_cap_without_sync scenario_A 1).
  - simpl. lia.
  - intros k v Hk Hv. simpl in Hk.
    assert (k = 3) by lia. subst k. vm_compute in Hv. inversion Hv. reflexivity.
  - intros k Hlo Hhi. simpl in Hhi. lia.
Defined.

(** X10. With the next sync byte at [n], within the cap and with no timing gap
    before it, the frame ends at [n] when the byte before [n] is not a zero
    byte, and one earlier, leaving the zero byte out, when it is. *)
Theorem frame_ends_at_next_sync (bd : capture) (s n : nat) (v w : string) :
  s + 2 <= n -> n <= s + 11 ->
  value_at bd n = Some v -> is_sync v = true ->
  (forall k u, s + 2 <= k < n -> value_at bd k = Some u -> is_sync u = false) ->
  value_at bd (n - 1) = Some w ->
  (forall k, s + 2 <= k -> k + 1 < n ->
             (time_at bd (k + 1) - time_at bd k <= 1000)%Z) ->
  frame_end bd s = Val (if is_break w then n - 1 else n).
Proof.
  intros Hlo Hcap Hv Hsv Hfirst Hw Hnogap.
  assert (Hn : n < length bd).
  { unfold value_at in Hv. destruct (nth_error bd n) eqn:Hnth; [|discriminate].
    apply nth_error_Some. congruence. }
  destruct (frame_end_spec bd s)
    as [ns [b [t [g [_ [Hok [Ht [_ [_ [Hscan Hfe]]]]]]]]]]; [lia|].
  assert (Hb : b = if is_break w then n - 1 else n).
  { destruct ns as [m|]; simpl in Hok.
    - destruct Hok as [Hm [[v' [Hv' Hsv']] [Hbefore Hcase]]].
      assert (m = n) by (eapply (first_sync_unique bd (s + 2)); eauto; lia).
      subst m.
      destruct Hcase as [[-> [u [Hu Hnb]]] | [-> [u [Hu Hbrk]]]];
        rewrite Hw in Hu; inversion Hu; subst u.
      + rewrite Hnb. reflexivity.
      + rewrite Hbrk. reflexivity.
    - destruct Hok as [_ Hnone].
      rewrite (Hnone n v) in Hsv; [discriminate | lia | assumption]. }
  assert (Hbn : b <= n) by (rewrite Hb; destruct (is_break w); lia).
  assert (Htb : t = b) by lia.
  assert (Hg : g = None).
  { destruct g as [j|]; [|reflexivity]. simpl in Hscan.
    destruct Hscan as [Hjlo [Hjhi [Hgap _]]]. unfold gap_after in Hgap.
    assert (Hlt : j + 1 < n) by lia.
    specialize (Hnogap j Hjlo Hlt). lia. }
  subst g. rewrite Hfe. congruence.
Qed.

Lemma frame_ends_at_next_sync_witness :
  frame_end gap_after_pid 0 = Val (if is_break "0x03" then 5 - 1 else 5) /\
  frame_end break_after_pid 0 = Val (if is_break "0x00" then 3 - 1 else 3).
Proof.
  split.
  - apply (frame_ends_at_next_sync gap_after_pid 0 5 "0x55" "0x03");
      try lia; try reflexivity.
    + intros k u Hk Hu.
      assert (k = 2 \/ k = 3 \/ k = 4) as [-> | [-> | ->]] by lia;
        vm_compute in Hu; inversion Hu; reflexivity.
    + intros k Hlo Hhi.
      assert (k = 2 \/ k = 3) as [-> | ->] by lia; vm_compute; discriminate.
  - apply (frame_ends_at_next_sync break_after_pid 0 3 "0x55" "0x00");
      try lia; try reflexivity.
    intros k u Hk Hu.
    assert (k = 2) by lia. subst k. vm_compute in Hu. inversion Hu. reflexivity.
Defined.

(** * Rows of the output table *)

Lemma string_app_assoc (a b c : string) :
  ((a ++ b) ++ c)%string = (a ++ (b ++ c))%string.
Proof. induction a as [|x a IH]; simpl; [reflexivity | rewrite IH; reflexivity]. Qed.

Lemma int_of_decimal_str_int (z : Z) : int_of_decimal (str_int z) = Some z.
Proof.
  unfold int_of_decimal, str_int. rewrite NilZero.isi.
  - simpl. rewrite DecimalZ.of_to. reflexivity.
  - destruct z; simpl; try discriminate.
    intro H. inversion H as [Hp]. exact (Unsigned.to_uint_nonnil _ Hp).
  - destruct z; simpl; try discriminate.
    intro H. inversion H as [Hp]. exact (Unsigned.to_uint_nonnil _ Hp).
Qed.

Lemma str_int_inj (a b : Z) : str_int a = str_int b -> a = b.
Proof.
  intro H. pose proof (int_of_decimal_str_int a) as Ha.
  rewrite H, int_of_decimal_str_int in Ha. congruence.
Qed.

Lemma split_comma_plain (s : string) :
  all_chars (fun c => negb (Ascii.eqb c ",")) s = true -> split_comma s = [s].
Proof.
  induction s as [|c s IH]; simpl; intro H; [reflexivity|].
  apply andb_prop in H. destruct H as [Hc Hs].
  destruct (Ascii.eqb c ","); [discriminate|].
  rewrite (IH Hs). reflexivity.
Qed.

Lemma split_comma_app (s rest : string) :
  all_chars (fun c => negb (Ascii.eqb c ",")) s = true ->
  split_comma (s ++ "," ++ rest)%string = s :: split_comma rest.
Proof.
  induction s as [|c s IH]; simpl; intro H; [reflexivity|].
  apply andb_prop in H. destruct H as [Hc Hs].
  destruct (Ascii.eqb c ","); [discriminate|].
  simpl in IH. rewrite (IH Hs). reflexivity.
Qed.

Lemma token_plain (v : string) :
  token v = true ->
  v <> "" /\ all_chars (fun c => negb (Ascii.eqb c ",")) v = true.
Proof.
  unfold token. intro H. apply andb_prop in H. destruct H as [Hne Hc].
  split; [|assumption]. intros ->. discriminate.
Qed.

(** Splitting the joined data column on commas gives the data bytes back. *)
Lemma split_join (l : list string) :
  Forall (fun v => token v = true) l -> l <> [] ->
  split_comma (join "," l) = l.
Proof.
  induction l as [|x l IH]; intros Hall Hne; [congruence|].
  inversion Hall as [|? ? Hx Hl]; subst.
  apply token_plain in Hx. destruct Hx as [_ Hx].
  destruct l as [|y l].
  - simpl. apply split_comma_plain. assumption.
  - change (join "," (x :: y :: l)) with (x ++ "," ++ join "," (y :: l))%string.
    rewrite split_comma_app by assumption.
    rewrite IH; [reflexivity | assumption | discriminate].
Qed.

Lemma to_csv_row_data_column_aux (f : LINFrame) :
  Forall (fun v => token v = true) (data f) ->
  (nth 4 (to_csv_row f) "" = "" <-> data f = []) /\
  (data f <> [] -> split_comma (nth 4 (to_csv_row f) "") = data f).
Proof.
  intro Hall. unfold to_csv_row. simpl.
  destruct (data f) as [|x l] eqn:Hd.
  - split; [tauto | congruence].
  - assert (Hs : split_comma (join "," (x :: l)) = x :: l)
      by (apply split_join; [assumption | discriminate]).
    split; [|intros _; assumption].
    split; [|discriminate].
    intro Hempty. rewrite Hempty in Hs. simpl in Hs. inversion Hs; subst.
    inversion Hall as [|? ? Hx _]. discriminate Hx.
Qed.

(** X11. The data column of a row is empty exactly for a frame without data
    bytes, and otherwise splits on commas into the data bytes, in order. *)
Theorem to_csv_row_data_column (f : LINFrame) :
  Forall (fun v => token v = true) (data f) ->
  length (to_csv_row f) = 6 /\
  (nth 4 (to_csv_row f) "" = "" <-> data f = []) /\
  (data f <> [] -> split_comma (nth 4 (to_csv_row f) "") = data f).
Proof.
  intro Hall. split; [reflexivity|].
  apply to_csv_row_data_column_aux. assumption.
Qed.

Lemma to_csv_row_data_column_witness :
  length (to_csv_row frame_A) = 6 /\
  (nth 4 (to_csv_row frame_A) "" = "" <-> data frame_A = []) /\
  (data frame_A <> [] -> split_comma (nth 4 (to_csv_row frame_A) "") = data frame_A).
Proof.
  apply (to_csv_row_data_column frame_A).
  simpl. constructor.
Defined.

(** X12. The row keeps everything: two frames whose data bytes are non-empty
    and free of commas have the same row only if they are the same
    frame. *)
Theorem to_csv_row_lossless (f g : LINFrame) :
  Forall (fun v => token v = true) (data f) ->
  Forall (fun v => token v = true) (data g) ->
  to_csv_row f = to_csv_row g -> f = g.
Proof.
  intros Hf Hg Hrow.
  destruct (to_csv_row_data_column_aux f Hf) as [Hf0 Hf1].
  destruct (to_csv_row_data_column_aux g Hg) as [Hg0 Hg1].
  assert (Hcol : nth 4 (to_csv_row f) "" = nth 4 (to_csv_row g) "")
    by (rewrite Hrow; reflexivity).
  assert (Hdata : data f = data g).
  { assert (Hnil : data f = [] \/ data f <> [])
      by (destruct (data f); [left; reflexivity | right; discriminate]).
    destruct Hnil as [Hnil | Hne].
    - rewrite Hnil. symmetry. apply Hg0. rewrite <- Hcol. apply Hf0. assumption.
    - assert (Hne' : data g <> []).
      { intro Hnil. apply Hne. apply Hf0. rewrite Hcol. apply Hg0. assumption. }
      rewrite <- (Hf1 Hne), <- (Hg1 Hne'), Hcol. reflexivity. }
  unfold to_csv_row in Hrow. destruct f, g; simpl in *.
  injection Hrow as Hts Hb Hs Hp _ Hc.
  apply str_int_inj in Hts. subst. reflexivity.
Qed.

Lemma to_csv_row_lossless_witness :
  {| timestamp := 0; break_byte := ""; sync := "0x55"; pid := "0x12";
     data := ["0x01"; "0x02"]; checksum := "0x03" |} =
  {| timestamp := 0; break_byte := ""; sync := "0x55"; pid := "0x12";
     data := ["0x01"; "0x02"]; checksum := "0x03" |}.
Proof.
  apply to_csv_row_lossless.
  - simpl. repeat constructor.
  - simpl. repeat constructor.
  - reflexivity.
Defined.

Lemma emitted_data_tokens (bd : capture) (s : nat) (f : LINFrame) :
  (forall j v, value_at bd j = Some v -> token v = true) ->
  In (s, f) (emitted (run bd)) ->
  Forall (fun v => token v = true) (data f).
Proof.
  intros Htok Hin. destruct (emitted_extract _ _ _ Hin) as [Hx [Hlong _]].
  destruct (extract_shape bd s Hlong) as [g [e [Hx' [_ [_ [_ [Hcase _]]]]]]].
  rewrite Hx in Hx'. inversion Hx'; subst g.
  destruct Hcase as [[_ [-> _]] | [_ [-> _]]]; [constructor|].
  apply Forall_forall. intros v Hv. apply values_In in Hv.
  destruct Hv as [k [_ Hk]]. eapply Htok. eassumption.
Qed.

(** X13. Parsing followed by serialising loses nothing: for a capture whose
    byte tokens are non-empty and free of commas, two frames returned by
    the scan have the same row only if they are the same frame. *)
Theorem parsed_frame_rows_lossless (bd : capture) (frames : list LINFrame)
    (f g : LINFrame) :
  (forall j v, value_at bd j = Some v -> token v = true) ->
  parse_frames bd = Some (Val frames) ->
  In f frames -> In g frames ->
  to_csv_row f = to_csv_row g -> f = g.
Proof.
  intros Htok Hrun Hf Hg Hrow.
  rewrite parse_frames_run in Hrun. inversion Hrun; subst frames.
  apply in_map_iff in Hf. destruct Hf as [[sf f'] [Ef Hf]].
  apply in_map_iff in Hg. destruct Hg as [[sg g'] [Eg Hg]].
  simpl in Ef, Eg. subst f' g'.
  pose proof (emitted_data_tokens bd sf f Htok Hf) as Tf.
  pose proof (emitted_data_tokens bd sg g Htok Hg) as Tg.
  pose proof (to_csv_row_data_column_aux f Tf) as [Hf0 Hf1].
  pose proof (to_csv_row_data_column_aux g Tg) as [Hg0 Hg1].
  assert (Hcol : nth 4 (to_csv_row f) "" = nth 4 (to_csv_row g) "")
    by (rewrite Hrow; reflexivity).
  assert (Hdata : data f = data g).
  { assert (Hnil : data f = [] \/ data f <> [])
      by (destruct (data f); [left; reflexivity | right; discriminate]).
    destruct Hnil as [Hnil | Hne].
    - rewrite Hnil. symmetry. apply Hg0. rewrite <- Hcol. apply Hf0. assumption.
    - assert (Hne' : data g <> []).
      { intro Hnil. apply Hne. apply Hf0. rewrite Hcol. apply Hg0. assumption. }
      rewrite <- (Hf1 Hne), <- (Hg1 Hne'), Hcol. reflexivity. }
  unfold to_csv_row in Hrow. destruct f, g; simpl in *.
  injection Hrow as Hts Hb Hs Hp _ Hc.
  apply str_int_inj in Hts. subst. reflexivity.
Qed.

Lemma parsed_frame_rows_lossless_witness : frame_sentinel = frame_sentinel.
Proof.
  apply (parsed_frame_rows_lossless break_after_pid
           [frame_sentinel; frame_after_break]).
  - intros j v Hv.
    do 6 (destruct j as [|j]; [vm_compute in Hv; inversion Hv; reflexivity|]).
    destruct j; discriminate Hv.
  - reflexivity.
  - simpl. left. reflexivity.
  - simpl. left. reflexivity.
  - reflexivity.
Defined.

(** * The loader *)

(** ** White space and fields *)

Lemma rstrip_space (t : string) : all_chars isspace t = true -> rstrip t = "".
Proof.
  induction t as [|c t IH]; simpl; intro H; [reflexivity|].
  apply andb_prop in H. destruct H as [Hc Ht].
  rewrite (IH Ht), Hc. reflexivity.
Qed.

Lemma rstrip_app_space (x t : string) :
  all_chars isspace t = true -> rstrip (x ++ t) = rstrip x.
Proof.
  intro Ht. induction x as [|c x IH]; simpl.
  - apply rstrip_space. assumption.
  - rewrite IH. reflexivity.
Qed.

Lemma rstrip_nospace (s : string) :
  all_chars (fun c => negb (isspace c)) s = true -> rstrip s = s.
Proof.
  induction s as [|c s IH]; simpl; intro H; [reflexivity|].
  apply andb_prop in H. destruct H as [Hc Hs]. rewrite (IH Hs).
  apply negb_true_iff in Hc. rewrite Hc. destruct s; reflexivity.
Qed.

Lemma rstrip_app_keep (x y : string) :
  rstrip y <> "" -> rstrip (x ++ y) = (x ++ rstrip y)%string.
Proof.
  intro Hy. induction x as [|c x IH]; simpl; [reflexivity|].
  rewrite IH. destruct (x ++ rstrip y)%string eqn:E; [|reflexivity].
  exfalso. destruct x; simpl in E; [contradiction | discriminate].
Qed.

Lemma all_chars_weaken (p q : ascii -> bool) (s : string) :
  (forall c, p c = true -> q c = true) ->
  all_chars p s = true -> all_chars q s = true.
Proof.
  intro Hpq. induction s as [|c s IH]; simpl; intro H; [reflexivity|].
  apply andb_prop in H. destruct H as [Hc Hs].
  rewrite (Hpq c Hc), (IH Hs). reflexivity.
Qed.

Lemma clean_parts (s : string) :
  clean s = true ->
  s <> "" /\
  all_chars (fun c => negb (isspace c)) s = true /\
  all_chars (fun c => negb (Ascii.eqb c ",")) s = true.
Proof.
  unfold clean. intro H. apply andb_prop in H. destruct H as [Hne Hall].
  split; [intros ->; discriminate|]. split.
  - eapply all_chars_weaken; [|eassumption].
    intros c Hc. apply andb_prop in Hc. tauto.
  - eapply all_chars_weaken; [|eassumption].
    intros c Hc. apply andb_prop in Hc. tauto.
Qed.

Lemma lstrip_keep (s t : string) :
  s <> "" -> all_chars (fun c => negb (isspace c)) s = true ->
  lstrip (s ++ t) = (s ++ t)%string.
Proof.
  intros Hne Hall. destruct s as [|c s]; [contradiction|].
  simpl in *. apply andb_prop in Hall. destruct Hall as [Hc _].
  apply negb_true_iff in Hc. rewrite Hc. reflexivity.
Qed.

Lemma strip_clean (s : string) : clean s = true -> strip s = s.
Proof.
  intro H. apply clean_parts in H. destruct H as [Hne [Hsp _]].
  unfold strip. replace s with (s ++ "")%string at 1
    by (clear; induction s as [|c s IH]; simpl; [|rewrite IH]; reflexivity).
  rewrite lstrip_keep by assumption.
  replace (s ++ "")%string with s
    by (clear; induction s as [|c s IH]; simpl; [|rewrite <- IH]; reflexivity).
  apply rstrip_nospace. assumption.
Qed.

(** A well-formed row line strips to [stamp,byte]. *)
Lemma strip_row_line (r : row) :
  clean (row_stamp r) = true -> clean (row_byte r) = true ->
  all_chars isspace (row_eol r) = true ->
  strip (row_line r) = (row_stamp r ++ "," ++ row_byte r)%string.
Proof.
  intros Hs Hb He. unfold strip, row_line.
  apply clean_parts in Hs. destruct Hs as [Hsne [Hssp _]].
  apply clean_parts in Hb. destruct Hb as [Hbne [Hbsp _]].
  rewrite lstrip_keep by assumption.
  replace (row_stamp r ++ "," ++ row_byte r ++ row_eol r)%string
    with (((row_stamp r ++ ",") ++ row_byte r) ++ row_eol r)%string
    by (rewrite !string_app_assoc; reflexivity).
  rewrite rstrip_app_space by assumption.
  rewrite rstrip_app_keep; rewrite rstrip_nospace by assumption;
    [rewrite string_app_assoc; reflexivity | assumption].
Qed.

Lemma prefix_cons (a b : ascii) (s t : string) :
  String.prefix (String a s) (String b t) =
  if Ascii.eqb a b then String.prefix s t else false.
Proof.
  change (String.prefix (String a s) (String b t))
    with (match ascii_dec a b with
          | left _ => String.prefix s t
          | right _ => false
          end).
  destruct (ascii_dec a b) as [E|E]; destruct (Ascii.eqb_spec a b);
    congruence.
Qed.

Lemma prefix_nil_r (a : ascii) (s : string) :
  String.prefix (String a s) "" = false.
Proof. reflexivity. Qed.

Lemma not_header_marker (stamp rest : string) :
  startswith "===" stamp = false ->
  startswith "===" (stamp ++ "," ++ rest) = false.
Proof.
  unfold startswith.
  assert (Hc : Ascii.eqb "=" "," = false) by reflexivity.
  destruct stamp as [|a [|b [|c s]]]; cbn [append];
    rewrite ?prefix_cons, ?prefix_nil_r, ?Hc; intro H;
    repeat match goal with
    | |- context [Ascii.eqb "=" ?y] =>
        destruct (Ascii.eqb "=" y); rewrite ?prefix_cons, ?Hc; try congruence
    end; try reflexivity; try congruence.
  destruct s; discriminate H.
Qed.

(** ** The row loop *)

Lemma parse_rows_cons (py_int : string -> option Z) (line : string)
    (rows : list string) (bd : capture) :
  parse_rows py_int (line :: rows) bd =
  if startswith "===" (strip line) || is_empty (strip line) then bd
  else match split_comma (strip line) with
       | [p0; p1] =>
           match py_int p0 with
           | Some t => parse_rows py_int rows (bd ++ [(t, strip p1)])
           | None => parse_rows py_int rows bd
           end
       | _ => parse_rows py_int rows bd
       end.
Proof. reflexivity. Qed.

Lemma parse_rows_row_ok (py_int : string -> option Z) (r : row)
    (rows : list string) (bd : capture) :
  row_ok py_int r ->
  parse_rows py_int (row_line r :: rows) bd =
  parse_rows py_int rows (bd ++ [(row_time r, row_byte r)]).
Proof.
  intros [Hs [Hb [He [Hm Hi]]]].
  rewrite parse_rows_cons, strip_row_line by assumption.
  rewrite not_header_marker by assumption.
  pose proof (clean_parts _ Hs) as [Hsne [_ Hsc]].
  pose proof (clean_parts _ Hb) as [_ [_ Hbc]].
  assert (Hne : is_empty (row_stamp r ++ "," ++ row_byte r) = false)
    by (destruct (row_stamp r); [contradiction | reflexivity]).
  rewrite Hne. cbn [orb].
  rewrite split_comma_app by assumption.
  rewrite split_comma_plain by assumption.
  rewrite Hi, strip_clean by assumption. reflexivity.
Qed.

Lemma parse_rows_wellformed (py_int : string -> option Z) (rows : list row)
    (tail : list string) (bd : capture) :
  Forall (row_ok py_int) rows ->
  tail = [] \/ (exists stop rest, tail = stop :: rest /\ stops stop = true) ->
  parse_rows py_int (map row_line rows ++ tail) bd =
  bd ++ map (fun r => (row_time r, row_byte r)) rows.
Proof.
  intros Hrows Htail. revert bd.
  induction Hrows as [|r rows Hr _ IH]; intro bd; simpl map.
  - rewrite app_nil_r. simpl app.
    destruct Htail as [-> | [stop [rest [-> Hstop]]]]; [reflexivity|].
    rewrite parse_rows_cons. unfold stops in Hstop. rewrite Hstop. reflexivity.
  - change ((row_line r :: map row_line rows) ++ tail)
      with (row_line r :: (map row_line rows ++ tail)).
    rewrite parse_rows_row_ok by assumption.
    rewrite IH, <- app_assoc. reflexivity.
Qed.

Lemma parse_rows_stop (py_int : string -> option Z) (body : list string)
    (stop : string) (rest : list string) (bd : capture) :
  stops stop = true ->
  parse_rows py_int (body ++ stop :: rest) bd = parse_rows py_int body bd.
Proof.
  intro Hstop. revert bd. induction body as [|line body IH]; intro bd.
  - simpl app. rewrite parse_rows_cons. unfold stops in Hstop.
    rewrite Hstop. reflexivity.
  - change ((line :: body) ++ stop :: rest) with (line :: (body ++ stop :: rest)).
    rewrite !parse_rows_cons.
    destruct (startswith "===" (strip line) || is_empty (strip line));
      [reflexivity|].
    destruct (split_comma (strip line)) as [|p0 [|p1 [|p2 ps]]]; try apply IH.
    destruct (py_int p0); apply IH.
Qed.

Lemma parse_rows_appends (py_int : string -> option Z) (rows : list string)
    (bd : capture) :
  exists new, parse_rows py_int rows bd = bd ++ new /\ length new <= length rows.
Proof.
  revert bd. induction rows as [|line rows IH]; intro bd.
  - exists []. rewrite app_nil_r. split; [reflexivity | simpl; lia].
  - rewrite parse_rows_cons.
    assert (Hskip : exists new, parse_rows py_int rows bd = bd ++ new /\
                                length new <= length (line :: rows)).
    { destruct (IH bd) as [new [E L]]. exists new. split; [assumption|].
      simpl. lia. }
    destruct (startswith "===" (strip line) || is_empty (strip line)).
    { exists []. rewrite app_nil_r. split; [reflexivity | simpl; lia]. }
    destruct (split_comma (strip line)) as [|p0 [|p1 [|p2 ps]]]; try exact Hskip.
    destruct (py_int p0) as [t|]; [|exact Hskip].
    destruct (IH (bd ++ [(t, strip p1)])) as [new [E L]].
    exists ((t, strip p1) :: new). rewrite E, <- app_assoc.
    split; [reflexivity | simpl; lia].
Qed.

(** ** The header search *)

Lemma find_header_at (pre : list string) (hdr : string) (rest : list string) :
  Forall (fun l => passed_over l = true) pre ->
  contains CSV_HEADER hdr = true ->
  find_header (pre ++ hdr :: rest) = HeaderAt rest.
Proof.
  intros Hpre Hhdr. induction Hpre as [|l pre Hl _ IH]; simpl.
  - rewrite Hhdr. reflexivity.
  - unfold passed_over in Hl. apply andb_prop in Hl. destruct Hl as [H1 H2].
    apply negb_true_iff in H1, H2. rewrite H1, H2. assumption.
Qed.

Lemma find_header_suffix (lines rows : list string) :
  find_header lines = HeaderAt rows -> length rows < length lines.
Proof.
  induction lines as [|l lines IH]; simpl; [discriminate|].
  destruct (contains CSV_HEADER l).
  - intro H. inversion H; subst. lia.
  - destruct (startswith "===" (strip l) && contains "End" l); [discriminate|].
    intro H. apply IH in H. lia.
Qed.

(** ** [load_capture] *)

(** X14. Without a header line the load fails and leaves [bytes_data] as it
    was, whatever else the file holds. *)
Theorem load_capture_no_header (py_int : string -> option Z)
    (lines : list string) (bd : capture) :
  (forall l, In l lines -> contains CSV_HEADER l = false) ->
  load_capture py_int lines bd = (false, bd).
Proof.
  intro Hno. unfold load_capture.
  assert (H : find_header lines = NoHeader \/ find_header lines = EndBeforeHeader).
  { induction lines as [|l lines IH]; simpl; [left; reflexivity|].
    rewrite (Hno l) by (left; reflexivity).
    destruct (startswith "===" (strip l) && contains "End" l);
      [right; reflexivity|].
    apply IH. intros l' Hl'. apply Hno. right. assumption. }
  destruct H as [-> | ->]; reflexivity.
Qed.

Lemma load_capture_no_header_witness :
  load_capture int_of_decimal ["0,0x55"; "10,0x12"] [] = (false, []).
Proof.
  apply load_capture_no_header.
  intros l [<- | [<- | []]]; reflexivity.
Defined.

(** X15. An end marker met before the header makes the load fail and leaves
    [bytes_data] as it was, even when a header and data rows follow. *)
Theorem load_capture_end_before_header (py_int : string -> option Z)
    (pre : list string) (marker : string) (rest : list string) (bd : capture) :
  Forall (fun l => passed_over l = true) pre ->
  contains CSV_HEADER marker = false ->
  startswith "===" (strip marker) = true ->
  contains "End" marker = true ->
  load_capture py_int (pre ++ marker :: rest) bd = (false, bd).
Proof.
  intros Hpre Hnh Hm He. unfold load_capture.
  assert (H : find_header (pre ++ marker :: rest) = EndBeforeHeader).
  { induction Hpre as [|l pre Hl _ IH]; simpl.
    - rewrite Hnh, Hm, He. reflexivity.
    - unfold passed_over in Hl. apply andb_prop in Hl. destruct Hl as [H1 H2].
      apply negb_true_iff in H1, H2. rewrite H1, H2. assumption. }
  rewrite H. reflexivity.
Qed.

Lemma load_capture_end_before_header_witness :
  load_capture int_of_decimal
    (["LIN capture"] ++ "=== End ===" :: ["Timestamp_us,Byte_Hex"; "0,0x55"]) []
  = (false, []).
Proof.
  apply load_capture_end_before_header.
  - repeat constructor.
  - reflexivity.
  - reflexivity.
  - reflexivity.
Defined.

(** X16. Loading only appends: the old [bytes_data] is a prefix of the new one,
    fewer bytes are added than the file has lines, and the load reports
    success only with a non-empty [bytes_data]. *)
Theorem load_capture_appends (py_int : string -> option Z)
    (lines : list string) (bd : capture) :
  exists new,
    snd (load_capture py_int lines bd) = bd ++ new /\
    length new <= length lines /\
    (fst (load_capture py_int lines bd) = true ->
     snd (load_capture py_int lines bd) <> []).
Proof.
  unfold load_capture. destruct (find_header lines) as [rows| |] eqn:Hh.
  - destruct (parse_rows_appends py_int rows bd) as [new [E L]].
    apply find_header_suffix in Hh.
    exists new. simpl. split; [assumption|]. split; [lia|].
    intro H. apply Nat.ltb_lt in H. intro Hnil. rewrite Hnil in H.
    simpl in H. lia.
  - exists []. simpl. rewrite app_nil_r.
    split; [reflexivity|]. split; [lia | discriminate].
  - exists []. simpl. rewrite app_nil_r.
    split; [reflexivity|]. split; [lia | discriminate].
Qed.

(** X17. Lines after the first blank line or [===] line that follows the header
    are ignored: cutting the file there changes nothing. *)
Theorem load_capture_truncates (py_int : string -> option Z)
    (pre : list string) (hdr : string) (body : list string) (stop : string)
    (rest : list string) (bd : capture) :
  Forall (fun l => passed_over l = true) pre ->
  contains CSV_HEADER hdr = true ->
  stops stop = true ->
  load_capture py_int (pre ++ hdr :: body ++ stop :: rest) bd =
  load_capture py_int (pre ++ hdr :: body) bd.
Proof.
  intros Hpre Hhdr Hstop. unfold load_capture.
  rewrite !find_header_at by assumption.
  rewrite parse_rows_stop by assumption. reflexivity.
Qed.

Lemma load_capture_truncates_witness :
  load_capture int_of_decimal
    (["LIN capture"] ++ "Timestamp_us,Byte_Hex" :: ["0,0x55"] ++
     "=== End ===" :: ["10,0x12"]) [] =
  load_capture int_of_decimal
    (["LIN capture"] ++ "Timestamp_us,Byte_Hex" :: ["0,0x55"]) [].
Proof.
  apply load_capture_truncates.
  - repeat constructor.
  - reflexivity.
  - reflexivity.
Defined.

(** X18. A capture file in the expected format loads to exactly its rows, in
    order: after any lines without header or end marker and the header
    line, rows of the form [stamp,byte] followed by white space, with
    [stamp] read by [int] and both fields free of white space and commas,
    up to the end of the file or a blank or [===] line. *)
Theorem load_capture_wellformed (py_int : string -> option Z)
    (pre : list string) (hdr : string) (rows : list row)
    (tail : list string) (bd : capture) :
  Forall (fun l => passed_over l = true) pre ->
  contains CSV_HEADER hdr = true ->
  Forall (row_ok py_int) rows ->
  tail = [] \/ (exists stop rest, tail = stop :: rest /\ stops stop = true) ->
  load_capture py_int (pre ++ hdr :: map row_line rows ++ tail) bd =
  ((0 <? length (bd ++ map (fun r => (row_time r, row_byte r)) rows))%nat,
   bd ++ map (fun r => (row_time r, row_byte r)) rows).
Proof.
  intros Hpre Hhdr Hrows Htail. unfold load_capture.
  rewrite find_header_at by assumption.
  rewrite parse_rows_wellformed by assumption. reflexivity.
Qed.

Lemma load_capture_wellformed_witness :
  load_capture int_of_decimal file_A [] = (true, scenario_A).
Proof.
  apply (load_capture_wellformed int_of_decimal
           [("=== LIN Capture ===" ++ eol)%string] (CSV_HEADER ++ eol)%string
           rows_A [("=== End ===" ++ eol)%string; ("40,0x01" ++ eol)%string] []).
  - repeat constructor.
  - reflexivity.
  - repeat constructor.
  - right. eexists. eexists. split; reflexivity.
Defined.
